(** * Location image aggregation: search route and timeline bucketing

    A shallow embedding of the aggregation pipeline of the location-images
    application:

    - [src/app/api/search/route.ts], handler [GET]: source selection, the
      adapters' catch-all boundary, URL de-duplication ([uniqueImages], and
      [uniqueFetched] on records whose url may fail to be a string), the
      random re-ordering ([shuffled]) and the JSON response;
    - [src/components/Timeline.tsx], memo [periods]: the year sort
      ([sortedImages]), the grouping loop over [periodDefs], the undated
      bucket and the final ordering of the periods.

    JavaScript numbers that hold years are integers ([parseInt] of digits,
    then JSON), modelled in [Z]; an absent, [null] or [NaN] year is [None].
    The current year read from the clock is a parameter [now]. *)

From stdpp Require Import base decidable option list sorting gmap strings.
From Stdlib Require Import ZArith QArith Lia Ascii.

#[local] Set Warnings "-clear-no-such-hyp".

Local Open Scope string_scope.
Local Open Scope list_scope.
Local Open Scope Z_scope.

(** ** Strings *)

Module JsString.

(** [s.split(sep)] for a one-character separator: the pieces between the
    occurrences of [sep], never an empty array. *)
Fixpoint split (sep : ascii) (s : string) : list string :=
  match s with
  | EmptyString => [EmptyString]
  | String c s' =>
      if decide (c = sep) then EmptyString :: split sep s'
      else match split sep s' with
           | [] => [String c EmptyString]
           | piece :: pieces => String c piece :: pieces
           end
  end.

(** [xs.includes(x)] on an array of strings. *)
Definition includes (xs : list string) (x : string) : bool :=
  bool_decide (x ∈ xs).

(** [!s] for a value of type [string | null]. *)
Definition falsy (s : option string) : bool :=
  match s with
  | None => true
  | Some s => bool_decide (s = "")
  end.

End JsString.

(** ** Records *)

(** [interface ImageResult]. Optional fields are [option]s. *)
Record ImageResult := mkImage {
  id_ : string;
  url : string;
  thumbnail : string;
  title : string;
  source : string;
  sourceUrl : string;
  width : option Z;
  height : option Z;
  year : option Z;
  date : option string;
  isHistorical : option bool;
}.

#[global] Instance ImageResult_eq_dec : EqDecision ImageResult.
Proof. solve_decision. Defined.

(** ** De-duplication (route.ts, [uniqueImages]) *)

(** [img.url.split('?')[0]] *)
Definition key (img : ImageResult) : string :=
  default "" (head (JsString.split "?"%char (url img))).

(** The canonical key in the words of the specification: the url with
    everything from its first question mark onward removed. *)
Fixpoint stripQuery (s : string) : string :=
  match s with
  | EmptyString => EmptyString
  | String c s' => if decide (c = "?"%char) then EmptyString else String c (stripQuery s')
  end.

(** [allImages.filter(img => ...)] with the closure's [seen] set threaded
    through the pass. *)
Fixpoint uniqueImages_from (seen : gset string) (allImages : list ImageResult)
  : list ImageResult :=
  match allImages with
  | [] => []
  | img :: rest =>
      if decide (key img ∈ seen) then uniqueImages_from seen rest
      else img :: uniqueImages_from ({[key img]} ∪ seen) rest
  end.

Definition uniqueImages (allImages : list ImageResult) : list ImageResult :=
  uniqueImages_from ∅ allImages.

(** ** Arrays *)

Module JsArray.

(** [xs.sort(compareFn)] with a comparator that is a pure function. The
    engine's sort is stable; for a consistent comparator every stable sort
    yields the same array, computed here by insertion from the right: [x]
    stays in front of [y] unless [compareFn(x, y) > 0]. *)
Fixpoint insert {A} (compareFn : A → A → Z) (x : A) (sorted : list A) : list A :=
  match sorted with
  | [] => [x]
  | y :: rest =>
      if decide (compareFn x y ≤ 0) then x :: y :: rest
      else y :: insert compareFn x rest
  end.

Definition sort {A} (compareFn : A → A → Z) (xs : list A) : list A :=
  foldr (insert compareFn) [] xs.

(** The order a comparator asks for: [a] may stand before [b]. *)
Definition before {A} (compareFn : A → A → Z) (a b : A) : Prop :=
  compareFn a b ≤ 0.

(** [xs.sort(compareFn)] with a comparator that reads and advances a state
    [G] (a random generator) at every call and returns a fractional number.
    The order of the result then depends on the engine's algorithm; the same
    insertion scheme is used, one comparator call per step. *)
Fixpoint insertM {A G} (compareFn : A → A → G → Q * G) (x : A)
    (sorted : list A) (g : G) : list A * G :=
  match sorted with
  | [] => ([x], g)
  | y :: rest =>
      let '(c, g1) := compareFn x y g in
      if Qle_bool c 0 then (x :: y :: rest, g1)
      else let '(rest', g2) := insertM compareFn x rest g1 in (y :: rest', g2)
  end.

Fixpoint sortM {A G} (compareFn : A → A → G → Q * G) (xs : list A) (g : G)
  : list A * G :=
  match xs with
  | [] => ([], g)
  | x :: rest =>
      let '(sorted, g1) := sortM compareFn rest g in
      insertM compareFn x sorted g1
  end.

(** [[...new Set(xs)]]: the distinct strings of [xs] in order of first
    insertion. *)
Fixpoint distinct_from (seen : gset string) (xs : list string) : list string :=
  match xs with
  | [] => []
  | x :: rest =>
      if decide (x ∈ seen) then distinct_from seen rest
      else x :: distinct_from ({[x]} ∪ seen) rest
  end.

Definition distinct (xs : list string) : list string := distinct_from ∅ xs.

End JsArray.

(** ** The search route (route.ts, [GET]) *)

(** What a call evaluates to inside a [try]: a value, or an exception. For a
    promise: resolved with a value, or rejected. *)
Inductive Outcome (A : Type) : Type :=
| Returned (a : A)
| Thrown.
Arguments Returned {A} a.
Arguments Thrown {A}.

(** [Promise.all(ps)]: resolves with all the values, in order, when every
    promise resolves; rejects when one does. *)
Fixpoint Promise_all {A} (ps : list (Outcome A)) : Outcome (list A) :=
  match ps with
  | [] => Returned []
  | Thrown :: _ => Thrown
  | Returned a :: rest =>
      match Promise_all rest with
      | Returned results => Returned (a :: results)
      | Thrown => Thrown
      end
  end.

(** A record as an adapter returns it at run time. The adapters fill [url]
    from parsed payloads, and [scrapeBingImages] stores [data.murl] as it
    comes out of [JSON.parse], guarded by its truthiness only: the value of
    [url] need not be a string, whatever the interface declares. *)
Inductive Fetched : Type :=
| WellFormed (img : ImageResult)
| UrlNotString.

#[global] Instance Fetched_eq_dec : EqDecision Fetched.
Proof. solve_decision. Defined.

(** The filter of [GET] on run-time records,
    [allImages.filter(img => { const key = img.url.split('?')[0]; ... })]:
    the call [img.url.split] is made for every record and throws a
    [TypeError] on a [url] that is not a string. *)
Fixpoint uniqueFetched_from (seen : gset string) (allImages : list Fetched)
  : Outcome (list ImageResult) :=
  match allImages with
  | [] => Returned []
  | UrlNotString :: _ => Thrown
  | WellFormed img :: rest =>
      if decide (key img ∈ seen) then uniqueFetched_from seen rest
      else match uniqueFetched_from ({[key img]} ∪ seen) rest with
           | Returned kept => Returned (img :: kept)
           | Thrown => Thrown
           end
  end.

Definition uniqueFetched (allImages : list Fetched) : Outcome (list ImageResult) :=
  uniqueFetched_from ∅ allImages.

(** [NextResponse.json(...)]: the success body, or an error with its HTTP
    status. *)
Inductive Response : Type :=
| Ok (images : list ImageResult) (count : nat) (sources : list string)
| Error (status : Z) (error : string).

(** One handled request: the adapters that were called, in call order, and
    the response. *)
Record Handled := mkHandled {
  invoked : list string;
  response : Response;
}.

(** The adapters of the eleven [if (sources.includes(...))] statements, in
    the order of the statements. *)
Definition adapters : list string :=
  ["google"; "bing"; "flickr"; "unsplash"; "zillow"; "redfin";
   "loc"; "wikimedia"; "archive"; "nypl"; "maps"].

Definition defaultSources : string :=
  "google,bing,flickr,unsplash,loc,wikimedia,archive".

Section Route.

(** The outside world of one request: what the body of each adapter's [try]
    block does for a query (fetching and parsing may throw), and the random
    generator behind [Math.random()]. *)
Variable fetchImages : string → string → Outcome (list Fetched).
Variable Rng : Type.
Variable Math_random : Rng → Q * Rng.

(** [async function scrape...(query)]: [try { ... return images } catch
    (error) { return [] }]. *)
Definition scrape (adapter query : string) : Outcome (list Fetched) :=
  match fetchImages adapter query with
  | Returned images => Returned images
  | Thrown => Returned []
  end.

(** [searchParams.get('sources') || '...'], then [.split(',')]. *)
Definition sourcesOf (sourcesParam : option string) : list string :=
  JsString.split ","%char
    (if JsString.falsy sourcesParam then defaultSources
     else default defaultSources sourcesParam).

(** The adapters whose [if] fires. *)
Definition queued (sources : list string) : list string :=
  filter (λ adapter, JsString.includes sources adapter = true) adapters.

Definition searchPromises (sources : list string) (location : string)
  : list (Outcome (list Fetched)) :=
  (λ adapter, scrape adapter location) <$> queued sources.

(** [() => Math.random() - 0.5] *)
Definition coin (_ _ : ImageResult) (g : Rng) : Q * Rng :=
  let '(r, g1) := Math_random g in ((r - 1 / 2)%Q, g1).

(** [uniqueImages.sort(() => Math.random() - 0.5)] *)
Definition shuffled (unique : list ImageResult) (g : Rng) : list ImageResult :=
  fst (JsArray.sortM coin unique g).

(** What an adapter contributes: its records, or nothing when its body
    threw. *)
Definition contribution (location adapter : string) : list Fetched :=
  match fetchImages adapter location with
  | Returned images => images
  | Thrown => []
  end.

(** [(await Promise.all(searchPromises)).flat()] *)
Definition allImages (sources : list string) (location : string)
  : Outcome (list Fetched) :=
  match Promise_all (searchPromises sources location) with
  | Returned results => Returned (concat results)
  | Thrown => Thrown
  end.

Definition GET (location sourcesParam : option string) (g : Rng) : Handled :=
  if JsString.falsy location then
    mkHandled [] (Error 400 "Location is required")
  else
    let location := default "" location in
    let sources := sourcesOf sourcesParam in
    mkHandled (queued sources)
      match allImages sources location with
      | Returned all =>
          match uniqueFetched all with
          | Returned unique =>
              let images := shuffled unique g in
              Ok images (length images) (JsArray.distinct (source <$> images))
          | Thrown => Error 500 "Search failed"
          end
      | Thrown => Error 500 "Search failed"
      end.

End Route.

(** ** The timeline (Timeline.tsx, [periods]) *)

(** [interface TimelinePeriod] *)
Record TimelinePeriod := mkPeriod {
  label : string;
  startYear : Z;
  endYear : Z;
  images : list ImageResult;
}.

(** An entry of [periodDefs]: [{ label, start, end }]. *)
Record PeriodDef := mkDef {
  def_label : string;
  start : Z;
  end_ : Z;
}.

Definition periodDefs (now : Z) : list PeriodDef :=
  [ mkDef "2020s" 2020 now;
    mkDef "2010s" 2010 2019;
    mkDef "2000s" 2000 2009;
    mkDef "1990s" 1990 1999;
    mkDef "1980s" 1980 1989;
    mkDef "1970s" 1970 1979;
    mkDef "1960s" 1960 1969;
    mkDef "1950s" 1950 1959;
    mkDef "1940s" 1940 1949;
    mkDef "1930s" 1930 1939;
    mkDef "1920s" 1920 1929;
    mkDef "1910s" 1910 1919;
    mkDef "1900s" 1900 1909;
    mkDef "1800s" 1800 1899;
    mkDef "Earlier" 0 1799 ].

Definition undatedLabel : string := "Modern / Unknown Date".

(** [!img.year]: true when the year is absent and when it is the number 0. *)
Definition noYear (img : ImageResult) : bool :=
  match year img with
  | None => true
  | Some y => bool_decide (y = 0)
  end.

(** [img.year!] where the year is known to be there. *)
Definition yearOf (img : ImageResult) : Z := default 0 (year img).

(** The comparator of [sortedImages]. *)
Definition byYear (a b : ImageResult) : Z :=
  if noYear a && noYear b then 0
  else if noYear a then 1
  else if noYear b then -1
  else yearOf b - yearOf a.

Definition sortedImages (imgs : list ImageResult) : list ImageResult :=
  JsArray.sort byYear imgs.

(** [periodDefs.find(p => img.year! >= p.start && img.year! <= p.end)] *)
Definition findPeriod (now : Z) (img : ImageResult) : option PeriodDef :=
  find (λ p, bool_decide (start p ≤ yearOf img) && bool_decide (yearOf img ≤ end_ p))
       (periodDefs now).

(** [result.find(r => r.label === l)] *)
Definition findExisting (l : string) (result : list TimelinePeriod)
  : option TimelinePeriod :=
  find (λ r, bool_decide (label r = l)) result.

(** [existing.images.push(img)] for the object [existing] that
    [result.find(r => r.label === l)] designates: the first period of
    [result] with that label is updated in place. *)
Fixpoint pushImage (l : string) (img : ImageResult)
    (result : list TimelinePeriod) : list TimelinePeriod :=
  match result with
  | [] => []
  | r :: rest =>
      if decide (label r = l)
      then mkPeriod (label r) (startYear r) (endYear r) (images r ++ [img]) :: rest
      else r :: pushImage l img rest
  end.

(** One iteration of [for (const img of sortedImages)] on the pair
    [(result, undated)]. *)
Definition group (now : Z)
    (acc : list TimelinePeriod * list ImageResult) (img : ImageResult)
  : list TimelinePeriod * list ImageResult :=
  let '(result, undated) := acc in
  if noYear img then (result, undated ++ [img])
  else
    match findPeriod now img with
    | Some period =>
        let result1 :=
          match findExisting (def_label period) result with
          | Some _ => result
          | None =>
              result ++ [mkPeriod (def_label period) (start period) (end_ period) []]
          end in
        (pushImage (def_label period) img result1, undated)
    | None => (result, undated)
    end.

(** The comparator of the final sort: [b.startYear - a.startYear]. *)
Definition byStartYear (a b : TimelinePeriod) : Z := startYear b - startYear a.

Definition periods (now : Z) (imgs : list ImageResult) : list TimelinePeriod :=
  let '(result, undated) := foldl (group now) ([], []) (sortedImages imgs) in
  let result1 :=
    if bool_decide (0 < length undated)%nat
    then result ++ [mkPeriod undatedLabel now now undated]
    else result in
  JsArray.sort byStartYear result1.

(** ** Auxiliary notions for the statements *)

(** The range of a table entry contains the year [y]. *)
Definition contains (d : PeriodDef) (y : Z) : Prop := start d ≤ y ≤ end_ d.

(** The undated bucket as [periods] builds it. *)
Definition undatedBucket (now : Z) (imgs : list ImageResult) : TimelinePeriod :=
  mkPeriod undatedLabel now now (filter (λ img, noYear img = true) imgs).

(** [img] has a year and the first period of the table that contains it has
    label [l]. *)
Definition inPeriod (now : Z) (l : string) (img : ImageResult) : bool :=
  negb (noYear img) && bool_decide (def_label <$> findPeriod now img = Some l).

(** [existing.images.push(img)] on one period. *)
Definition addImage (l : string) (img : ImageResult) (r : TimelinePeriod)
  : TimelinePeriod :=
  if decide (label r = l)
  then mkPeriod (label r) (startYear r) (endYear r) (images r ++ [img])
  else r.

(** The state of the loop after the images [done] have been visited. *)
Definition grouped (now : Z) (done : list ImageResult)
    (acc : list TimelinePeriod * list ImageResult) : Prop :=
  acc.2 = filter (λ img, noYear img = true) done ∧
  NoDup (label <$> acc.1) ∧
  (∀ r, r ∈ acc.1 →
     images r ≠ [] ∧
     images r = filter (λ img, inPeriod now (label r) img = true) done ∧
     mkDef (label r) (startYear r) (endYear r) ∈ periodDefs now) ∧
  (∀ img l, img ∈ done → inPeriod now l img = true → l ∈ label <$> acc.1).

(** ** Sample data *)

Definition photo (name link src : string) (y : option Z) : ImageResult :=
  mkImage name link link name src link None None y None None.

Definition img_loc : ImageResult :=
  mkImage "loc-1" "https://x.com/img.jpg?w=100" "https://x.com/t.jpg" "First"
          "loc" "https://www.loc.gov/item/1" None None (Some 1923)
          (Some "1923") (Some true).

Definition img_google : ImageResult :=
  mkImage "google-0" "https://x.com/img.jpg?w=200" "https://x.com/img.jpg?w=200"
          "Second" "google" "https://www.google.com/search?q=x" None None None
          None None.

Definition img_year0 : ImageResult :=
  mkImage "archive-a-1" "https://archive.org/download/a/a.jpg"
          "https://archive.org/download/a/__ia_thumb.jpg" "Year zero" "archive"
          "https://archive.org/details/a" None None (Some 0) None (Some true).

Definition img_future : ImageResult :=
  mkImage "archive-b-1" "https://archive.org/download/b/b.jpg"
          "https://archive.org/download/b/__ia_thumb.jpg" "Plan 2027" "archive"
          "https://archive.org/details/b" None None (Some 2027) None (Some true).

(** Records with the years 2021, 1995, 1923 and none. *)
Definition scenario3 : list ImageResult :=
  [photo "a" "https://x.com/a.jpg" "google" (Some 2021);
   photo "b" "https://x.com/b.jpg" "loc" (Some 1995);
   photo "c" "https://x.com/c.jpg" "loc" (Some 1923);
   photo "d" "https://x.com/d.jpg" "bing" None].

(** A world in which the [google] adapter finds two images and the body of
    every other adapter throws; a generator that alternates 1/4 and 3/4. *)
Definition fetch_sample (adapter query : string) : Outcome (list Fetched) :=
  if decide (adapter = "google")
  then Returned [WellFormed img_google;
                 WellFormed (photo "google-1" "https://y.com/b.png" "google" None)]
  else Thrown.

(** A world in which the [bing] adapter returns one well-formed record and
    one record whose [murl] was a number, and the body of every other
    adapter throws. *)
Definition fetch_murl (adapter query : string) : Outcome (list Fetched) :=
  if decide (adapter = "bing")
  then Returned [WellFormed (photo "bing-0" "https://z.com/c.jpg" "bing" None);
                 UrlNotString]
  else Thrown.

Definition Math_random_sample (n : nat) : Q * nat :=
  ((if Nat.even n then 1 # 4 else 3 # 4)%Q, S n).

(** ** The page (page.tsx, [Home]) and the source filters (SourceFilters.tsx) *)

Module Page.

(** [xs.join(sep)] *)
Fixpoint join (sep : string) (xs : list string) : string :=
  match xs with
  | [] => ""
  | [x] => x
  | x :: rest => x +:+ sep +:+ join sep rest
  end.

(** The [sources] parameter that [handleSearch] puts in the query string:
    [activeSources.join(',')]. [URLSearchParams] hands the server the value
    it was given. *)
Definition sourcesParamOf (activeSources : list string) : option string :=
  Some (join "," activeSources).

(** The updater of [onToggleSource]:
    [prev.includes(source) ? prev.filter(s => s !== source) : [...prev, source]]. *)
Definition onToggleSource (source : string) (prev : list string) : list string :=
  if JsString.includes prev source
  then filter (λ s, s ≠ source) prev
  else prev ++ [source].

Definition MAX_RECENT_SEARCHES : nat := 5.

(** [addRecentSearch]: the list that is stored,
    [[location, ...recentSearches.filter(s => s !== location)].slice(0, 5)]. *)
Definition addRecentSearch (location : string) (recentSearches : list string)
  : list string :=
  take MAX_RECENT_SEARCHES (location :: filter (λ s, s ≠ location) recentSearches).

(** [img.isHistorical || img.year] as a condition. *)
Definition historical (img : ImageResult) : bool :=
  match isHistorical img with
  | Some true => true
  | _ => negb (noYear img)
  end.

(** [filteredImages], for the value of [selectedSource]. *)
Definition filteredImages (selectedSource : string) (imgs : list ImageResult)
  : list ImageResult :=
  if decide (selectedSource = "all") then imgs
  else if decide (selectedSource = "historical")
       then filter (λ img, historical img = true) imgs
       else filter (λ img, source img = selectedSource) imgs.

(** [sourceCounts]: the object built by [images.reduce] with
    [acc[img.source] = (acc[img.source] || 0) + 1], as a finite map. The
    sources are adapter names, which the empty object does not inherit. *)
Definition sourceCounts (imgs : list ImageResult) : gmap string nat :=
  foldl (λ acc img, <[source img := (default 0 (acc !! source img) + 1)%nat]> acc)
        ∅ imgs.

Definition historicalCount (imgs : list ImageResult) : nat :=
  length (filter (λ img, historical img = true) imgs).

End Page.

Module SourceFilters.

Definition MODERN_SOURCES : list string :=
  ["google"; "bing"; "flickr"; "unsplash"; "zillow"; "redfin"].

Definition HISTORICAL_SOURCES : list string :=
  ["loc"; "wikimedia"; "archive"; "nypl"; "maps"].

(** The sources for which a "toggle all" handler calls [onToggleSource], in
    call order: every source of the group that is active when all of them
    are, and otherwise every source of the group that is not active. The
    tests read the [activeSources] of the current render. *)
Definition toggled (sources activeSources : list string) : list string :=
  if forallb (JsString.includes activeSources) sources
  then filter (λ s, JsString.includes activeSources s = true) sources
  else filter (λ s, JsString.includes activeSources s = false) sources.

(** The state after the handler: the queued updaters of [onToggleSource]
    run in call order, starting from the current [activeSources]. *)
Definition toggleAll (sources activeSources : list string) : list string :=
  foldl (λ prev s, Page.onToggleSource s prev) activeSources
        (toggled sources activeSources).

Definition toggleAllModern : list string → list string :=
  toggleAll MODERN_SOURCES.

Definition toggleAllHistorical : list string → list string :=
  toggleAll HISTORICAL_SOURCES.

End SourceFilters.

(** The character [c] occurs in [s]. *)
Fixpoint hasChar (c : ascii) (s : string) : bool :=
  match s with
  | EmptyString => false
  | String a rest => bool_decide (a = c) || hasChar c rest
  end.

(** ** The timeline header (Timeline.tsx, [yearRange]) *)

(** [{ min, max, span }] *)
Record YearRange := mkRange {
  range_min : Z;
  range_max : Z;
  span : Z;
}.

(** [images.filter(img => img.year).map(img => img.year!)] *)
Definition yearsOf (imgs : list ImageResult) : list Z :=
  yearOf <$> filter (λ img, noYear img = false) imgs.

(** [Math.min(...years)] and [Math.max(...years)] on a non-empty array,
    given as its first element and the rest. *)
Definition Math_min (y : Z) (ys : list Z) : Z := foldr Z.min y ys.
Definition Math_max (y : Z) (ys : list Z) : Z := foldr Z.max y ys.

Definition yearRange (imgs : list ImageResult) : option YearRange :=
  match yearsOf imgs with
  | [] => None
  | y :: ys =>
      let lo := Math_min y ys in
      let hi := Math_max y ys in
      Some (mkRange lo hi (hi - lo))
  end.

(** ** Year extraction in the archive adapters (route.ts) *)

Module YearMatch.

(** Character classes of the regular expression: [[0-9]], [[0-2]] and the
    word characters [[A-Za-z0-9_]] that decide [\b]. *)
Definition code (c : ascii) : N := N_of_ascii c.

Definition isDigit (c : ascii) : bool := (48 <=? code c)%N && (code c <=? 57)%N.

Definition isDigit02 (c : ascii) : bool := (48 <=? code c)%N && (code c <=? 50)%N.

Definition isWord (c : ascii) : bool :=
  isDigit c
  || (65 <=? code c)%N && (code c <=? 90)%N
  || (97 <=? code c)%N && (code c <=? 122)%N
  || (code c =? 95)%N.

Definition digit (c : ascii) : Z := Z.of_N (code c) - 48.

(** [\b] after the four digits: the text ends, or goes on with a character
    that is not a word character. *)
Definition boundaryAfter (rest : string) : bool :=
  match rest with
  | EmptyString => true
  | String c _ => negb (isWord c)
  end.

(** [(1[0-9]{3}|20[0-2][0-9])\b] matched at the front of [s]; the value is
    [parseInt] of the group. *)
Definition yearHere (s : string) : option Z :=
  match s with
  | String a (String b (String c (String d rest))) =>
      if (bool_decide (a = "1"%char) && isDigit b && isDigit c && isDigit d
          || bool_decide (a = "2"%char) && bool_decide (b = "0"%char)
             && isDigit02 c && isDigit d)
         && boundaryAfter rest
      then Some (1000 * digit a + 100 * digit b + 10 * digit c + digit d)
      else None
  | _ => None
  end.

(** The search of [text.match(/\b(1[0-9]{3}|20[0-2][0-9])\b/)] from the
    current position on, left to right; [afterWord] tells whether the
    character just before the position is a word character, in which case
    the leading [\b] fails there. *)
Fixpoint matchFrom (afterWord : bool) (s : string) : option Z :=
  match (if afterWord then None else yearHere s) with
  | Some y => Some y
  | None =>
      match s with
      | EmptyString => None
      | String c rest => matchFrom (isWord c) rest
      end
  end.

(** [const yearMatch = text.match(...); if (yearMatch) year =
    parseInt(yearMatch[1])] *)
Definition extractYear (text : string) : option Z := matchFrom false text.

End YearMatch.

(** * Properties *)

(** ** De-duplication *)

Lemma split_head_stripQuery (s : string) :
  head (JsString.split "?"%char s) = Some (stripQuery s).
Proof.
  induction s as [|c s IH]; simpl; [done|].
  case_decide; [done|].
  destruct (JsString.split "?"%char s) as [|piece pieces]; [done|].
  simpl in *. by injection IH as ->.
Qed.

Lemma key_stripQuery (img : ImageResult) : key img = stripQuery (url img).
Proof. unfold key. by rewrite split_head_stripQuery. Qed.

Section Dedup.

Implicit Types (seen : gset string) (l : list ImageResult) (r : ImageResult).

Lemma uniqueImages_from_app seen l1 l2 :
  uniqueImages_from seen (l1 ++ l2) =
  uniqueImages_from seen l1 ++
  uniqueImages_from (list_to_set (key <$> l1) ∪ seen) l2.
Proof.
  revert seen. induction l1 as [|r l1 IH]; intros seen; simpl.
  - f_equal. set_solver.
  - case_decide as Hin.
    + rewrite IH. do 2 f_equal. set_solver.
    + simpl. rewrite IH. do 3 f_equal. set_solver.
Qed.

Lemma uniqueImages_from_elem seen l r :
  r ∈ uniqueImages_from seen l → r ∈ l ∧ key r ∉ seen.
Proof.
  revert seen. induction l as [|a l IH]; intros seen; simpl.
  - intros H. inversion H.
  - case_decide as Hin.
    + intros H. apply IH in H as [??]. split; [by right | done].
    + intros [->|H]%elem_of_cons.
      * split; [by left | done].
      * apply IH in H as [? Hn]. split; [by right | set_solver].
Qed.

Lemma uniqueImages_from_NoDup seen l :
  NoDup (key <$> uniqueImages_from seen l).
Proof.
  revert seen. induction l as [|a l IH]; intros seen; simpl.
  - constructor.
  - case_decide as Hin; [apply IH|].
    rewrite fmap_cons. constructor; [|apply IH].
    intros (r & Hk & Hr)%list_elem_of_fmap.
    apply uniqueImages_from_elem in Hr as [_ Hn]. set_solver.
Qed.

(** A second pass with the same initial set finds nothing to drop. *)
Lemma uniqueImages_from_idem seen l :
  uniqueImages_from seen (uniqueImages_from seen l) = uniqueImages_from seen l.
Proof.
  revert seen. induction l as [|a l IH]; intros seen; simpl; [done|].
  case_decide as Hin; [apply IH|].
  simpl. rewrite decide_False by done. by rewrite IH.
Qed.

(** The pass is a sublist of its input: order is kept, nothing is added. *)
Lemma uniqueImages_from_sublist seen l : uniqueImages_from seen l `sublist_of` l.
Proof.
  revert seen. induction l as [|a l IH]; intros seen; simpl; [done|].
  case_decide; [apply sublist_cons | apply sublist_skip]; apply IH.
Qed.

End Dedup.

(** C1. [uniqueImages] is one pass in input order keyed on the url cut at its
    first question mark: the key is the url with everything from the first
    question mark onward removed; the result is a sublist of the input; a record
    whose key occurs earlier in the input is dropped and changes nothing
    else; a record whose key does not occur earlier is kept, right after
    the survivors of the records before it. The source field plays no part.
    For the two records with urls [https://x.com/img.jpg?w=100] (from
    [loc]) and [https://x.com/img.jpg?w=200] (from [google]) the result is
    exactly the first record. *)
Theorem C1_first_occurrence_wins :
  (∀ img, key img = stripQuery (url img)) ∧
  (∀ l, uniqueImages l `sublist_of` l) ∧
  (∀ l1 r l2,
     uniqueImages (l1 ++ r :: l2) =
     if decide (key r ∈ key <$> l1)
     then uniqueImages (l1 ++ l2)
     else uniqueImages l1 ++
          r :: uniqueImages_from (list_to_set (key <$> l1 ++ [r])) l2) ∧
  key img_loc = "https://x.com/img.jpg" ∧
  key img_google = "https://x.com/img.jpg" ∧
  uniqueImages [img_loc; img_google] = [img_loc].
Proof.
  split; [apply key_stripQuery|].
  split; [intros l; apply uniqueImages_from_sublist|].
  split; [|by vm_compute].
  intros l1 r l2. unfold uniqueImages.
  rewrite !uniqueImages_from_app. simpl.
  case_decide as Hin.
  - rewrite decide_True by set_solver. done.
  - rewrite decide_False by set_solver. do 3 f_equal.
    rewrite fmap_app, list_to_set_app_L. simpl. set_solver.
Qed.

(** C6. No two records of the output of [uniqueImages] have the same url
    after the cut at the first question mark. *)
Theorem C6_no_residual_duplicates (l : list ImageResult) :
  NoDup (key <$> uniqueImages l).
Proof. apply uniqueImages_from_NoDup. Qed.

(** C9. [uniqueImages] is idempotent: a second application returns its
    argument unchanged, order included. *)
Theorem C9_uniqueImages_idempotent (l : list ImageResult) :
  uniqueImages (uniqueImages l) = uniqueImages l.
Proof. apply uniqueImages_from_idem. Qed.

(** ** Arrays: the stateful sort only moves elements *)

Section SortM.

Context {A G : Type} (compareFn : A → A → G → Q * G).

Lemma insertM_perm x (sorted : list A) g :
  (JsArray.insertM compareFn x sorted g).1 ≡ₚ x :: sorted.
Proof.
  revert g. induction sorted as [|y rest IH]; intros g; simpl; [done|].
  destruct (compareFn x y g) as [c g1].
  destruct (Qle_bool c 0); [done|].
  specialize (IH g1). destruct (JsArray.insertM compareFn x rest g1) as [rest' g2].
  simpl in *. rewrite IH. apply Permutation_swap.
Qed.

Lemma sortM_perm (xs : list A) g : (JsArray.sortM compareFn xs g).1 ≡ₚ xs.
Proof.
  induction xs as [|x rest IH]; simpl; [done|].
  destruct (JsArray.sortM compareFn rest g) as [sorted g1]. simpl in IH.
  rewrite insertM_perm. by rewrite IH.
Qed.

End SortM.

Lemma distinct_from_elem (seen : gset string) (xs : list string) (x : string) :
  x ∈ JsArray.distinct_from seen xs ↔ x ∈ xs ∧ x ∉ seen.
Proof.
  revert seen. induction xs as [|y xs IH]; intros seen; simpl.
  - split; [intros H; inversion H | intros [H _]; inversion H].
  - case_decide as Hin.
    + rewrite IH, elem_of_cons. naive_solver.
    + rewrite !elem_of_cons, IH, elem_of_union, elem_of_singleton.
      destruct (decide (x = y)) as [->|Hne]; naive_solver.
Qed.

Lemma distinct_from_NoDup (seen : gset string) (xs : list string) :
  NoDup (JsArray.distinct_from seen xs).
Proof.
  revert seen. induction xs as [|y xs IH]; intros seen; simpl; [constructor|].
  case_decide as Hin; [apply IH|].
  constructor; [|apply IH]. rewrite distinct_from_elem. set_solver.
Qed.

(** C7. [shuffled] is a permutation of its argument, whatever the random
    generator returns: the same records with the same multiplicities, none
    added, dropped or changed. *)
Theorem C7_shuffled_is_permutation
    (Rng : Type) (Math_random : Rng → Q * Rng)
    (x : list ImageResult) (g : Rng) :
  shuffled Rng Math_random x g ≡ₚ x.
Proof. apply sortM_perm. Qed.

(** ** The search route *)

Lemma elem_of_concat {A} (x : A) (ls : list (list A)) :
  x ∈ concat ls ↔ ∃ l, x ∈ l ∧ l ∈ ls.
Proof.
  rewrite list_elem_of_In, in_concat. split.
  - intros (l & Hl & Hx). exists l. by rewrite !list_elem_of_In.
  - intros (l & Hx & Hl). exists l. by rewrite <- !list_elem_of_In.
Qed.

Section RouteProps.

Variable fetchImages : string → string → Outcome (list Fetched).
Variable Rng : Type.
Variable Math_random : Rng → Q * Rng.

Lemma Promise_all_scrape (names : list string) (location : string) :
  Promise_all ((λ adapter, scrape fetchImages adapter location) <$> names) =
  Returned (contribution fetchImages location <$> names).
Proof.
  induction names as [|a names IH]; [done|].
  rewrite !fmap_cons. cbn [Promise_all]. rewrite IH.
  unfold scrape, contribution. by destruct (fetchImages a location).
Qed.

(** No adapter rejects, so [Promise.all] resolves. *)
Lemma allImages_resolves (sources : list string) (location : string) :
  allImages fetchImages sources location =
  Returned (concat (contribution fetchImages location <$> queued sources)).
Proof. unfold allImages, searchPromises. by rewrite Promise_all_scrape. Qed.

(** On records whose urls are all strings the filter is [uniqueImages]. *)
Lemma uniqueFetched_from_wellFormed (seen : gset string) (imgs : list ImageResult) :
  uniqueFetched_from seen (WellFormed <$> imgs) =
  Returned (uniqueImages_from seen imgs).
Proof.
  revert seen. induction imgs as [|img imgs IH]; intros seen; [done|].
  rewrite fmap_cons. cbn [uniqueFetched_from uniqueImages_from].
  case_decide; by rewrite IH.
Qed.

(** One url that is not a string makes the filter throw. *)
Lemma uniqueFetched_from_bad (seen : gset string) (items : list Fetched) :
  UrlNotString ∈ items → uniqueFetched_from seen items = Thrown.
Proof.
  revert seen. induction items as [|item items IH]; intros seen Hin.
  - inversion Hin.
  - destruct item as [img|]; [|done]. cbn [uniqueFetched_from].
    apply elem_of_cons in Hin as [Hin|Hin]; [done|].
    case_decide; by rewrite IH.
Qed.

Lemma all_wellFormed (items : list Fetched) :
  UrlNotString ∉ items → ∃ imgs, items = WellFormed <$> imgs.
Proof.
  induction items as [|item items IH]; [by exists []|].
  rewrite not_elem_of_cons. intros [Hitem (imgs & ->)%IH].
  destruct item as [img|]; [|done]. by exists (img :: imgs).
Qed.

Lemma GET_valid (location : string) (sourcesParam : option string) (g : Rng) :
  location ≠ "" →
  GET fetchImages Rng Math_random (Some location) sourcesParam g =
  mkHandled (queued (sourcesOf sourcesParam))
    match uniqueFetched
            (concat (contribution fetchImages location <$>
                       queued (sourcesOf sourcesParam))) with
    | Returned unique =>
        let images := shuffled Rng Math_random unique g in
        Ok images (length images) (JsArray.distinct (source <$> images))
    | Thrown => Error 500 "Search failed"
    end.
Proof.
  intros Hne. unfold GET. simpl.
  rewrite bool_decide_eq_false_2 by done.
  by rewrite allImages_resolves.
Qed.

Lemma GET_invalid (location sourcesParam : option string) (g : Rng) :
  JsString.falsy location = true →
  GET fetchImages Rng Math_random location sourcesParam g =
  mkHandled [] (Error 400 "Location is required").
Proof. intros H. unfold GET. by rewrite H. Qed.

(** The response to a request with a non-empty location: the 500 error
    when a collected record has a url that is not a string, and otherwise
    the shuffled, de-duplicated records with their count and sources. *)
Lemma GET_response (location : string) (sourcesParam : option string) (g : Rng) :
  location ≠ "" →
  let items := concat (contribution fetchImages location <$>
                         queued (sourcesOf sourcesParam)) in
  if decide (UrlNotString ∈ items)
  then response (GET fetchImages Rng Math_random (Some location) sourcesParam g)
       = Error 500 "Search failed"
  else ∃ imgs,
      items = WellFormed <$> imgs ∧
      response (GET fetchImages Rng Math_random (Some location) sourcesParam g)
      = let images := shuffled Rng Math_random (uniqueImages imgs) g in
        Ok images (length images) (JsArray.distinct (source <$> images)).
Proof.
  intros Hne items. rewrite GET_valid by done. cbn [response]. fold items.
  case_decide as Hbad.
  - unfold uniqueFetched. by rewrite uniqueFetched_from_bad.
  - destruct (all_wellFormed items Hbad) as (imgs & Himgs).
    exists imgs. split; [done|]. rewrite Himgs.
    unfold uniqueFetched. by rewrite uniqueFetched_from_wellFormed.
Qed.


End RouteProps.






(** ** Arrays: the pure sort *)

Section Sort.

Context {A : Type} (compareFn : A → A → Z).

Lemma insert_perm x (sorted : list A) :
  JsArray.insert compareFn x sorted ≡ₚ x :: sorted.
Proof.
  induction sorted as [|y rest IH]; simpl; [done|].
  case_decide; [done|]. rewrite IH. apply Permutation_swap.
Qed.

Lemma sort_perm (xs : list A) : JsArray.sort compareFn xs ≡ₚ xs.
Proof.
  induction xs as [|x rest IH]; simpl; [done|].
  rewrite insert_perm. by rewrite IH.
Qed.

Lemma sort_elem (xs : list A) x : x ∈ JsArray.sort compareFn xs ↔ x ∈ xs.
Proof. by rewrite sort_perm. Qed.

Hypothesis before_total :
  ∀ a b, JsArray.before compareFn a b ∨ JsArray.before compareFn b a.
Hypothesis before_trans :
  ∀ a b c, JsArray.before compareFn a b → JsArray.before compareFn b c →
           JsArray.before compareFn a c.

Lemma insert_sorted x (sorted : list A) :
  StronglySorted (JsArray.before compareFn) sorted →
  StronglySorted (JsArray.before compareFn) (JsArray.insert compareFn x sorted).
Proof.
  induction 1 as [|y rest Hrest IH Hy]; simpl.
  - repeat constructor.
  - case_decide as Hxy.
    + constructor; [by constructor|].
      constructor; [done|]. eapply Forall_impl; [exact Hy|].
      intros z Hz. by eapply before_trans.
    + constructor; [done|].
      rewrite insert_perm. constructor; [|done].
      destruct (before_total x y); [done|done].
Qed.

Lemma sort_sorted (xs : list A) :
  StronglySorted (JsArray.before compareFn) (JsArray.sort compareFn xs).
Proof.
  induction xs as [|x rest IH]; simpl; [constructor|by apply insert_sorted].
Qed.

End Sort.

(** The year sort keeps the records without a year in their input order. *)
Lemma byYear_after a b : ¬ byYear a b ≤ 0 → noYear b = false.
Proof.
  unfold byYear. destruct (noYear a), (noYear b); simpl; try done; lia.
Qed.

Lemma insert_byYear_noYear x (sorted : list ImageResult) :
  filter (λ img, noYear img = true) (JsArray.insert byYear x sorted) =
  filter (λ img, noYear img = true) (x :: sorted).
Proof.
  induction sorted as [|y rest IH]; simpl; [done|].
  case_decide as Hxy; [done|].
  apply byYear_after in Hxy.
  rewrite (filter_cons_False _ y) by congruence. rewrite IH.
  rewrite !filter_cons. rewrite (decide_False (P := noYear y = true)) by congruence.
  done.
Qed.

Lemma sortedImages_noYear (imgs : list ImageResult) :
  filter (λ img, noYear img = true) (sortedImages imgs) =
  filter (λ img, noYear img = true) imgs.
Proof.
  induction imgs as [|x rest IH]; [done|].
  unfold sortedImages in *. simpl. rewrite insert_byYear_noYear.
  rewrite !filter_cons. by rewrite IH.
Qed.

(** The two models of [sort] agree on a comparator that ignores the state. *)
Lemma insertM_pure {A G} (compareFn : A → A → Z) (x : A) (sorted : list A) (g : G) :
  JsArray.insertM (λ a b g, (inject_Z (compareFn a b), g)) x sorted g =
  (JsArray.insert compareFn x sorted, g).
Proof.
  induction sorted as [|y sorted IH]; [done|].
  cbn [JsArray.insertM JsArray.insert]. rewrite IH.
  unfold Qle_bool. simpl. rewrite Z.mul_1_r, Z.mul_0_l.
  case_decide as Hle.
  - by apply Z.leb_le in Hle as ->.
  - by apply Z.leb_nle in Hle as ->.
Qed.

Lemma sortM_pure {A G} (compareFn : A → A → Z) (xs : list A) (g : G) :
  JsArray.sortM (λ a b g, (inject_Z (compareFn a b), g)) xs g =
  (JsArray.sort compareFn xs, g).
Proof.
  induction xs as [|x rest IH]; [done|].
  cbn [JsArray.sortM JsArray.sort foldr]. rewrite IH.
  apply insertM_pure.
Qed.

Lemma byStartYear_total a b :
  JsArray.before byStartYear a b ∨ JsArray.before byStartYear b a.
Proof. unfold JsArray.before, byStartYear. lia. Qed.

Lemma byStartYear_trans a b c :
  JsArray.before byStartYear a b → JsArray.before byStartYear b c →
  JsArray.before byStartYear a c.
Proof. unfold JsArray.before, byStartYear. lia. Qed.

(** ** The grouping loop *)

Section Grouping.

Implicit Types (result : list TimelinePeriod) (r : TimelinePeriod)
  (img : ImageResult) (l : string).

Lemma pushImage_labels l img result :
  label <$> pushImage l img result = label <$> result.
Proof.
  induction result as [|r rest IH]; [done|]. cbn [pushImage].
  case_decide; rewrite !fmap_cons; [done | by rewrite IH].
Qed.

Lemma addImage_other l img result :
  l ∉ label <$> result → addImage l img <$> result = result.
Proof.
  induction result as [|r rest IH]; [done|]. rewrite !fmap_cons.
  rewrite not_elem_of_cons. intros [Hne Hrest].
  unfold addImage at 1. rewrite decide_False by done. by rewrite IH.
Qed.

Lemma pushImage_addImage l img result :
  NoDup (label <$> result) → pushImage l img result = addImage l img <$> result.
Proof.
  induction result as [|r rest IH]; [done|]. cbn [pushImage]. rewrite !fmap_cons.
  rewrite NoDup_cons. intros [Hr Hrest]. unfold addImage at 1.
  case_decide as Heq.
  - subst l. by rewrite addImage_other.
  - by rewrite IH.
Qed.

Lemma findExisting_Some l result r :
  findExisting l result = Some r → l ∈ label <$> result.
Proof.
  intros [Hin Hl]%find_some. apply bool_decide_eq_true in Hl. subst l.
  apply list_elem_of_fmap. exists r. by rewrite list_elem_of_In.
Qed.

Lemma findExisting_None l result :
  findExisting l result = None → l ∉ label <$> result.
Proof.
  intros Hnone (r & -> & Hin)%list_elem_of_fmap.
  apply list_elem_of_In in Hin.
  pose proof (find_none _ _ Hnone r Hin) as Hf. simpl in Hf.
  by apply bool_decide_eq_false in Hf.
Qed.

Lemma findPeriod_In now img d : findPeriod now img = Some d → d ∈ periodDefs now.
Proof. intros [Hin _]%find_some. by apply list_elem_of_In. Qed.

Lemma inPeriod_noYear now l img : noYear img = true → inPeriod now l img = false.
Proof. unfold inPeriod. by intros ->. Qed.

Lemma inPeriod_None now l img : findPeriod now img = None → inPeriod now l img = false.
Proof.
  unfold inPeriod. intros ->. apply andb_false_iff. right.
  by apply bool_decide_eq_false.
Qed.

Lemma inPeriod_Some now l img d :
  noYear img = false → findPeriod now img = Some d →
  inPeriod now l img = bool_decide (def_label d = l).
Proof.
  unfold inPeriod. intros -> ->. simpl.
  apply bool_decide_ext. split; congruence.
Qed.

Lemma filter_snoc_out (f : ImageResult → bool) (done : list ImageResult) img :
  f img = false →
  filter (λ x, f x = true) (done ++ [img]) = filter (λ x, f x = true) done.
Proof.
  intros Hf. rewrite filter_app, filter_cons_False, filter_nil, app_nil_r;
    [done | congruence].
Qed.

Lemma filter_snoc_in (f : ImageResult → bool) (done : list ImageResult) img :
  f img = true →
  filter (λ x, f x = true) (done ++ [img]) = filter (λ x, f x = true) done ++ [img].
Proof.
  intros Hf. by rewrite filter_app, filter_cons_True, filter_nil.
Qed.

Lemma filter_none (f : ImageResult → bool) (done : list ImageResult) :
  (∀ x, x ∈ done → f x ≠ true) → filter (λ x, f x = true) done = [].
Proof.
  induction done as [|x rest IH]; intros Hall; [done|].
  rewrite filter_cons_False; [|apply Hall; left].
  apply IH. intros y Hy. apply Hall. by right.
Qed.

End Grouping.

Section Loop.

Variable now : Z.

Lemma grouped_nil : grouped now [] ([], []).
Proof.
  split; [done|]. split; [constructor|].
  split; [intros r Hr; inversion Hr | intros img l Himg; inversion Himg].
Qed.

(** An image that joins no period leaves every period as it is. *)
Lemma grouped_skip done result undated img :
  (∀ l, inPeriod now l img = false) →
  grouped now done (result, undated) →
  ∀ undated',
    undated' = filter (λ x, noYear x = true) (done ++ [img]) →
    grouped now (done ++ [img]) (result, undated').
Proof.
  intros Hout (Hu & Hnd & Hper & Hcov) undated' ->. simpl in *.
  split; [done|]. split; [done|]. split.
  - intros r Hr. destruct (Hper r Hr) as (Hne & Himgs & Hdef).
    split; [done|]. split; [|done].
    by rewrite filter_snoc_out.
  - intros x l [Hx | ->%list_elem_of_singleton]%elem_of_app Hin.
    + by eapply Hcov.
    + by rewrite Hout in Hin.
Qed.

Lemma grouped_step done acc img :
  grouped now done acc → grouped now (done ++ [img]) (group now acc img).
Proof.
  destruct acc as [result undated]. intros Hinv. unfold group.
  destruct (noYear img) eqn:Hyear.
  { destruct Hinv as (Hu & Hrest). simpl in Hu.
    eapply grouped_skip; [|split; [exact Hu|exact Hrest]|].
    - intros l. by apply inPeriod_noYear.
    - rewrite filter_snoc_in by done. by rewrite Hu. }
  destruct (findPeriod now img) as [d|] eqn:Hfind; cycle 1.
  { eapply grouped_skip; [|exact Hinv|].
    - intros l. by apply inPeriod_None.
    - destruct Hinv as (Hu & _). simpl in Hu.
      rewrite filter_snoc_out by done. done. }
  pose proof (inPeriod_Some now) as Hin.
  destruct Hinv as (Hu & Hnd & Hper & Hcov). simpl in *.
  assert (∀ r, label r ≠ def_label d →
               filter (λ x, inPeriod now (label r) x = true) (done ++ [img]) =
               filter (λ x, inPeriod now (label r) x = true) done) as Hother.
  { intros r Hr. apply filter_snoc_out.
    rewrite (Hin _ _ d) by done. by apply bool_decide_eq_false. }
  assert (filter (λ x, inPeriod now (def_label d) x = true) (done ++ [img]) =
          filter (λ x, inPeriod now (def_label d) x = true) done ++ [img]) as Hsame.
  { apply filter_snoc_in. rewrite (Hin _ _ d) by done. by apply bool_decide_eq_true. }
  split; [by rewrite filter_snoc_out|].
  destruct (findExisting (def_label d) result) as [r0|] eqn:Hex.
  - apply findExisting_Some in Hex.
    rewrite pushImage_addImage by done. simpl.
    split.
    { rewrite <- pushImage_addImage by done. by rewrite pushImage_labels. }
    split.
    + intros r' (r & -> & Hr)%list_elem_of_fmap.
      destruct (Hper r Hr) as (Hne & Himgs & Hdef).
      unfold addImage. case_decide as Hl; simpl.
      * split; [by destruct (images r)|]. split; [|done].
        rewrite Hl, Hsame, <- Hl. by rewrite <- Himgs.
      * split; [done|]. split; [|done]. by rewrite Hother.
    + intros x l Hx Hl. rewrite <- pushImage_addImage by done.
      rewrite pushImage_labels.
      apply elem_of_app in Hx as [Hx | ->%list_elem_of_singleton].
      * by eapply Hcov.
      * rewrite (Hin _ _ d) in Hl by done.
        apply bool_decide_eq_true in Hl. by subst l.
  - apply findExisting_None in Hex.
    assert (NoDup (label <$> result ++
              [mkPeriod (def_label d) (start d) (end_ d) []])) as Hnd'.
    { rewrite fmap_app. apply NoDup_app. split; [done|]. split.
      - intros l Hl ->%list_elem_of_singleton. done.
      - simpl. apply NoDup_singleton. }
    rewrite pushImage_addImage by done.
    rewrite fmap_app, addImage_other by done. simpl.
    unfold addImage. simpl. rewrite decide_True by done.
    split.
    { rewrite fmap_app. by rewrite fmap_app in Hnd'. }
    split.
    + intros r [Hr | ->%list_elem_of_singleton]%elem_of_app.
      * destruct (Hper r Hr) as (Hne & Himgs & Hdef).
        split; [done|]. split; [|done].
        rewrite Hother; [done|].
        intros Hl. apply Hex. rewrite <- Hl.
        apply list_elem_of_fmap. eauto.
      * simpl. split; [done|]. split.
        -- rewrite Hsame.
           assert (filter (λ x, inPeriod now (def_label d) x = true) done = [])
             as ->; [|done].
           apply filter_none. intros x Hx Hl.
           apply Hex. by eapply Hcov.
        -- apply findPeriod_In in Hfind. by destruct d.
    + intros x l Hx Hl. rewrite fmap_app. simpl.
      apply elem_of_app in Hx as [Hx | ->%list_elem_of_singleton].
      * apply elem_of_app. left. by eapply Hcov.
      * rewrite (Hin _ _ d) in Hl by done.
        apply bool_decide_eq_true in Hl. subst l. set_solver.
Qed.

Lemma grouped_foldl (imgs : list ImageResult) :
  grouped now imgs (foldl (group now) ([], []) imgs).
Proof.
  induction imgs as [|img imgs IH] using rev_ind; [apply grouped_nil|].
  rewrite foldl_app. simpl. by apply grouped_step.
Qed.

End Loop.

(** ** The periods *)

Section Periods.

Variable now : Z.
Implicit Types (imgs : list ImageResult) (r : TimelinePeriod) (img : ImageResult).

(** [periods] is, up to the final ordering, the dated periods of the loop
    followed by the undated bucket when there is an image without a year. *)
Lemma periods_spec imgs :
  ∃ result,
    grouped now (sortedImages imgs) (result, images (undatedBucket now imgs)) ∧
    periods now imgs ≡ₚ
      result ++ (if decide (images (undatedBucket now imgs) = []) then []
                 else [undatedBucket now imgs]).
Proof.
  pose proof (grouped_foldl now (sortedImages imgs)) as Hinv.
  unfold periods.
  destruct (foldl (group now) ([], []) (sortedImages imgs)) as [result undated].
  assert (undated = images (undatedBucket now imgs)) as ->.
  { destruct Hinv as (Hu & _). simpl in Hu. by rewrite Hu, sortedImages_noYear. }
  exists result. split; [done|].
  rewrite sort_perm.
  case_bool_decide as Hlen; case_decide as Hnil.
  - rewrite Hnil in Hlen. simpl in Hlen. lia.
  - done.
  - by rewrite app_nil_r.
  - destruct (images (undatedBucket now imgs)); [done|]. simpl in Hlen. lia.
Qed.

Lemma periodDefs_facts (d : PeriodDef) :
  d ∈ periodDefs now → def_label d ≠ undatedLabel ∧ start d ≤ 2020.
Proof.
  unfold periodDefs. rewrite !elem_of_cons, elem_of_nil.
  intros H. repeat (destruct H as [-> | H]; [split; [discriminate | simpl; lia]|]).
  done.
Qed.

(** A period of the output is the undated bucket, or a dated period holding
    exactly the sorted images that the table sends to its label. *)
Lemma periods_elem imgs r :
  r ∈ periods now imgs →
  (r = undatedBucket now imgs ∧ images r ≠ []) ∨
  (label r ≠ undatedLabel ∧ images r ≠ [] ∧
   images r = filter (λ img, inPeriod now (label r) img = true) (sortedImages imgs) ∧
   mkDef (label r) (startYear r) (endYear r) ∈ periodDefs now).
Proof.
  destruct (periods_spec imgs) as (result & (_ & _ & Hper & _) & Hperm).
  rewrite Hperm, elem_of_app. intros [Hr | Hr].
  - right. destruct (Hper r Hr) as (Hne & Himgs & Hdef).
    split; [|done]. by apply periodDefs_facts in Hdef as [Hl _].
  - left. case_decide as Hnil; [inversion Hr|].
    apply list_elem_of_singleton in Hr. by subst r.
Qed.

Lemma periods_NoDup imgs : NoDup (label <$> periods now imgs).
Proof.
  destruct (periods_spec imgs) as (result & (_ & Hnd & Hper & _) & Hperm).
  rewrite Hperm, fmap_app. apply NoDup_app. split; [done|]. split.
  - intros l (r & -> & Hr)%list_elem_of_fmap Hl.
    destruct (Hper r Hr) as (_ & _ & Hdef).
    apply periodDefs_facts in Hdef as [Hne _]. simpl in Hne.
    case_decide; [inversion Hl|].
    apply list_elem_of_singleton in Hl. done.
  - case_decide; [constructor | apply NoDup_singleton].
Qed.

(** Two periods of the output with the same label are the same period. *)
Lemma periods_label_inj imgs r1 r2 :
  r1 ∈ periods now imgs → r2 ∈ periods now imgs → label r1 = label r2 → r1 = r2.
Proof.
  pose proof (periods_NoDup imgs) as Hnd. revert Hnd.
  induction (periods now imgs) as [|r rest IH]; [intros _ H; inversion H|].
  rewrite fmap_cons, NoDup_cons. intros [Hr Hnd].
  intros [->|H1]%elem_of_cons [->|H2]%elem_of_cons Hl; [done| | |by apply IH].
  - exfalso. apply Hr. rewrite Hl. apply list_elem_of_fmap. eauto.
  - exfalso. apply Hr. rewrite <- Hl. apply list_elem_of_fmap. eauto.
Qed.

Lemma periods_has_undated imgs img :
  img ∈ imgs → noYear img = true → undatedBucket now imgs ∈ periods now imgs.
Proof.
  intros Hin Hy.
  destruct (periods_spec imgs) as (result & _ & Hperm).
  rewrite Hperm, elem_of_app. right.
  rewrite decide_False; [by apply list_elem_of_singleton|].
  simpl. intros Hnil.
  by apply (filter_nil_not_elem_of (λ x, noYear x = true) imgs img).
Qed.

Lemma periods_has_dated imgs img l :
  img ∈ imgs → inPeriod now l img = true →
  ∃ r, r ∈ periods now imgs ∧ label r = l.
Proof.
  intros Hin Hl.
  destruct (periods_spec imgs) as (result & (_ & _ & _ & Hcov) & Hperm).
  assert (l ∈ label <$> result) as (r & -> & Hr)%list_elem_of_fmap.
  { eapply Hcov; [|done]. by apply sort_elem. }
  exists r. split; [|done]. rewrite Hperm, elem_of_app. by left.
Qed.

(** Membership of an image in a period of the output. *)
Lemma periods_image imgs r img :
  r ∈ periods now imgs →
  (img ∈ images r ↔
   img ∈ imgs ∧
   if decide (label r = undatedLabel) then noYear img = true
   else inPeriod now (label r) img = true).
Proof.
  intros [[-> _] | (Hl & _ & Himgs & _)]%periods_elem.
  - unfold undatedBucket. cbn [label images].
    rewrite decide_True by done. rewrite list_elem_of_filter. tauto.
  - rewrite decide_False by done. rewrite Himgs, list_elem_of_filter.
    unfold sortedImages. rewrite sort_elem. tauto.
Qed.

End Periods.

(** ** The period table *)

(** [find] returns the first element that passes the test. *)
Lemma find_first {A} (f : A → bool) (l : list A) (x : A) :
  find f l = Some x →
  ∃ l1 l2, l = l1 ++ x :: l2 ∧ f x = true ∧ ∀ y, y ∈ l1 → f y = false.
Proof.
  induction l as [|a l IH]; simpl; [done|].
  destruct (f a) eqn:Hfa.
  - intros [= ->]. exists [], l. split; [done|]. split; [done|].
    intros y Hy. inversion Hy.
  - intros (l1 & l2 & -> & Hx & Hl1)%IH. exists (a :: l1), l2.
    split; [done|]. split; [done|].
    intros y [->|Hy]%elem_of_cons; auto.
Qed.

Lemma findPeriod_first now img d :
  findPeriod now img = Some d →
  ∃ earlier later,
    periodDefs now = earlier ++ d :: later ∧
    contains d (yearOf img) ∧
    ∀ d', d' ∈ earlier → ¬ contains d' (yearOf img).
Proof.
  intros (l1 & l2 & Heq & Hd & Hl1)%find_first. exists l1, l2.
  split; [done|]. unfold contains.
  apply andb_true_iff in Hd as [Hlo%bool_decide_eq_true Hhi%bool_decide_eq_true].
  split; [lia|]. intros d' Hd' [Hlo' Hhi'].
  specialize (Hl1 d' Hd'). apply andb_false_iff in Hl1.
  destruct Hl1 as [Hn%bool_decide_eq_false | Hn%bool_decide_eq_false]; lia.
Qed.

(** The table covers the years from 0 up to the later of 2019 and [now]. *)
Lemma findPeriod_covered now img :
  0 ≤ yearOf img → yearOf img ≤ 2019 ∨ yearOf img ≤ now →
  is_Some (findPeriod now img).
Proof.
  intros Hlo Hhi. unfold findPeriod, periodDefs. cbn [find start end_].
  repeat (case_bool_decide; cbn [andb]; try (eexists; reflexivity); try lia).
Qed.

Lemma findPeriod_zero now img :
  yearOf img = 0 → findPeriod now img = Some (mkDef "Earlier" 0 1799).
Proof.
  intros Hy. unfold findPeriod, periodDefs. cbn [find start end_]. rewrite Hy.
  reflexivity.
Qed.

Lemma noYear_spec img :
  noYear img = true ↔ year img = None ∨ year img = Some 0.
Proof.
  unfold noYear. destruct (year img) as [y|]; [|naive_solver].
  rewrite bool_decide_eq_true. naive_solver.
Qed.

(** ** Coverage and disjointness of the buckets *)

(** The label an image is filed under decides the period. *)
Lemma periods_unique now imgs img r r' :
  r ∈ periods now imgs → r' ∈ periods now imgs →
  img ∈ images r → img ∈ images r' → r' = r.
Proof.
  intros Hr Hr' Hin Hin'. apply (periods_label_inj now imgs); [done..|].
  apply (periods_image now imgs r img Hr) in Hin as [_ Hin].
  apply (periods_image now imgs r' img Hr') in Hin' as [_ Hin'].
  do 2 case_decide; try congruence.
  - by rewrite inPeriod_noYear in Hin.
  - by rewrite inPeriod_noYear in Hin'.
  - unfold inPeriod in *.
    apply andb_true_iff in Hin as [_ Hin%bool_decide_eq_true].
    apply andb_true_iff in Hin' as [_ Hin'%bool_decide_eq_true].
    congruence.
Qed.

(** Filtering by equality with an image that passes [f] sees through a
    filter by [f]. *)
Lemma filter_eq_filter (f : ImageResult → bool) (img : ImageResult)
    (l : list ImageResult) :
  f img = true →
  filter (img =.) (filter (λ x, f x = true) l) = filter (img =.) l.
Proof.
  intros Hf. rewrite list_filter_filter. apply list_filter_iff.
  intros x. split; [tauto|]. intros <-. done.
Qed.

(** C2, amended. Every input record whose year is absent or 0, or lies
    between 1 and the later of 2019 and the current year, is in exactly one
    period of the output, as often as it occurs in the input: the undated
    bucket when the year is absent or 0, and otherwise the period made from
    the first entry of the table whose range contains the year. *)
Theorem C2_placeable_record_in_exactly_one_period
    (now : Z) (imgs : list ImageResult) (img : ImageResult) :
  img ∈ imgs →
  noYear img = true ∨ (1 ≤ yearOf img ∧ (yearOf img ≤ 2019 ∨ yearOf img ≤ now)) →
  ∃ r,
    r ∈ periods now imgs ∧ img ∈ images r ∧
    (∀ r', r' ∈ periods now imgs → img ∈ images r' → r' = r) ∧
    length (filter (img =.) (images r)) = length (filter (img =.) imgs) ∧
    if noYear img then label r = undatedLabel
    else ∃ earlier d later,
        periodDefs now = earlier ++ d :: later ∧
        contains d (yearOf img) ∧
        (∀ d', d' ∈ earlier → ¬ contains d' (yearOf img)) ∧
        label r = def_label d ∧ startYear r = start d ∧ endYear r = end_ d.
Proof.
  intros Hin Hscope. destruct (noYear img) eqn:Hy.
  - exists (undatedBucket now imgs).
    pose proof (periods_has_undated now imgs img Hin Hy) as Hu.
    assert (img ∈ images (undatedBucket now imgs)) as Hmem.
    { simpl. by apply list_elem_of_filter. }
    split; [done|]. split; [done|].
    split; [intros r' Hr' Hin'; by eapply periods_unique|].
    split; [|done]. simpl. by rewrite (filter_eq_filter noYear).
  - destruct Hscope as [|[Hlo Hhi]]; [done|].
    destruct (findPeriod_covered now img) as [d Hd]; [lia|done|].
    assert (inPeriod now (def_label d) img = true) as Hl.
    { rewrite (inPeriod_Some now _ img d) by done. by apply bool_decide_eq_true. }
    destruct (periods_has_dated now imgs img _ Hin Hl) as (r & Hr & Hlab).
    pose proof (periods_image now imgs r img Hr) as Himg.
    destruct (periods_elem now imgs r Hr) as [[-> _] | (Hne & _ & Himgs & Hdef)].
    { simpl in Hlab. apply findPeriod_In, periodDefs_facts in Hd as [Hd _].
      congruence. }
    exists r. rewrite decide_False in Himg by done. rewrite Hlab in Himg.
    assert (img ∈ images r) as Hmem by (apply Himg; done).
    split; [done|]. split; [done|].
    split; [intros r' Hr' Hin'; by eapply periods_unique|].
    split.
    + rewrite Himgs, Hlab, (filter_eq_filter (inPeriod now (def_label d))) by done.
      unfold sortedImages. by rewrite sort_perm.
    + destruct (findPeriod_first now img d Hd) as (l1 & l2 & Htab & Hc & Hfirst).
      exists l1, d, l2. split; [done|]. split; [done|]. split; [done|].
      split; [done|].
      (* the bounds of [r] are those of the table entry with its label *)
      assert (mkDef (label r) (startYear r) (endYear r) = d) as <-; [|done].
      pose proof (findPeriod_In _ _ _ Hd) as Hdin.
      revert Hdef Hdin Hlab. unfold periodDefs.
      rewrite !elem_of_cons, !elem_of_nil. clear.
      destruct d as [dl ds de]. simpl. intros H1 H2 <-.
      repeat (destruct H1 as [H1 | H1];
              [injection H1 as Hl1 Hs1 He1; rewrite Hl1, Hs1, He1 in *;
               repeat (destruct H2 as [H2 | H2];
                       [first [discriminate H2 | done]|]); done|]).
      done.
Qed.

Lemma C2_witness :
  img_loc ∈ [img_year0; img_loc; img_future] ∧
  (noYear img_loc = true ∨
   (1 ≤ yearOf img_loc ∧ (yearOf img_loc ≤ 2019 ∨ yearOf img_loc ≤ 2026))) ∧
  ∃ r,
    r ∈ periods 2026 [img_year0; img_loc; img_future] ∧ img_loc ∈ images r ∧
    (∀ r', r' ∈ periods 2026 [img_year0; img_loc; img_future] →
           img_loc ∈ images r' → r' = r) ∧
    length (filter (img_loc =.) (images r)) =
      length (filter (img_loc =.) [img_year0; img_loc; img_future]) ∧
    if noYear img_loc then label r = undatedLabel
    else ∃ earlier d later,
        periodDefs 2026 = earlier ++ d :: later ∧
        contains d (yearOf img_loc) ∧
        (∀ d', d' ∈ earlier → ¬ contains d' (yearOf img_loc)) ∧
        label r = def_label d ∧ startYear r = start d ∧ endYear r = end_ d.
Proof.
  assert (img_loc ∈ [img_year0; img_loc; img_future]) as Hin
    by (right; left).
  assert (noYear img_loc = true ∨
          (1 ≤ yearOf img_loc ∧ (yearOf img_loc ≤ 2019 ∨ yearOf img_loc ≤ 2026)))
    as Hscope by (right; vm_compute; intuition discriminate).
  split; [exact Hin|]. split; [exact Hscope|].
  exact (C2_placeable_record_in_exactly_one_period 2026 _ img_loc Hin Hscope).
Defined.

(** C2 as stated fails: in 2026 a record of year 2027 is in no period of
    the output, and a record of year 0, which the range of [Earlier]
    contains, is filed in the undated bucket. *)
Lemma C2_counterexample :
  periods 2026 [img_future] = [] ∧
  findPeriod 2026 img_year0 = Some (mkDef "Earlier" 0 1799) ∧
  periods 2026 [img_year0] = [mkPeriod "Modern / Unknown Date" 2026 2026 [img_year0]].
Proof. by vm_compute. Qed.

(** C3, amended. In the output of [periods] a record is in the undated
    bucket exactly when its year is absent or 0: no record with a year
    other than 0 is in the undated bucket, and no record whose year is
    absent or 0 is in a dated period. *)
Theorem C3_undated_bucket_iff_falsy_year
    (now : Z) (imgs : list ImageResult) (r : TimelinePeriod) (img : ImageResult) :
  r ∈ periods now imgs → img ∈ images r →
  (label r = undatedLabel ↔ year img = None ∨ year img = Some 0).
Proof.
  intros Hr Hin. rewrite <- noYear_spec.
  apply (periods_image now imgs r img Hr) in Hin as [_ Hin].
  case_decide as Hl; [done|]. split; [done|].
  intros Hy. by rewrite inPeriod_noYear in Hin.
Qed.

Lemma C3_witness :
  mkPeriod "Modern / Unknown Date" 2026 2026 [img_year0; img_google]
    ∈ periods 2026 [img_year0; img_loc; img_google] ∧
  img_google ∈ [img_year0; img_google] ∧
  (undatedLabel = undatedLabel ↔ year img_google = None ∨ year img_google = Some 0).
Proof.
  assert (mkPeriod "Modern / Unknown Date" 2026 2026 [img_year0; img_google]
            ∈ periods 2026 [img_year0; img_loc; img_google]) as Hr
    by (vm_compute; left).
  assert (img_google ∈ [img_year0; img_google]) as Hin by (right; left).
  split; [exact Hr|]. split; [exact Hin|].
  exact (C3_undated_bucket_iff_falsy_year 2026 _ _ img_google Hr Hin).
Defined.

(** C3 as stated fails: a record that has the year 0 is in the undated
    bucket. *)
Lemma C3_counterexample :
  year img_year0 = Some 0 ∧
  ∃ r, r ∈ periods 2026 [img_year0; img_loc] ∧
       label r = "Modern / Unknown Date" ∧ img_year0 ∈ images r.
Proof.
  split; [done|].
  exists (mkPeriod "Modern / Unknown Date" 2026 2026 [img_year0]).
  split; [vm_compute; left|]. split; [done | left].
Qed.

(** C10. A record whose year is 0 is undated for [periods]: although the
    range of [Earlier] contains 0, the record is in the undated bucket and
    in no other period, and the year sort ranks it as it ranks a record
    without a year. *)
Theorem C10_year_zero_is_undated
    (now : Z) (imgs : list ImageResult) (img : ImageResult) :
  img ∈ imgs → year img = Some 0 →
  findPeriod now img = Some (mkDef "Earlier" 0 1799) ∧
  undatedBucket now imgs ∈ periods now imgs ∧
  label (undatedBucket now imgs) = "Modern / Unknown Date" ∧
  img ∈ images (undatedBucket now imgs) ∧
  (∀ r, r ∈ periods now imgs → img ∈ images r → r = undatedBucket now imgs) ∧
  (∀ r, r ∈ periods now imgs → label r = "Earlier" → img ∉ images r) ∧
  (∀ other, byYear img other = (if noYear other then 0 else 1) ∧
            byYear other img = (if noYear other then 0 else -1)).
Proof.
  intros Hin Hy.
  assert (noYear img = true) as Hno by (apply noYear_spec; auto).
  pose proof (periods_has_undated now imgs img Hin Hno) as Hu.
  assert (img ∈ images (undatedBucket now imgs)) as Hmem.
  { simpl. by apply list_elem_of_filter. }
  split; [apply findPeriod_zero; unfold yearOf; by rewrite Hy|].
  split; [done|]. split; [done|]. split; [done|].
  split; [intros r Hr Hin'; by eapply periods_unique|].
  split.
  - intros r Hr Hl Hin'.
    assert (r = undatedBucket now imgs) as -> by (by eapply periods_unique).
    discriminate Hl.
  - intros other. unfold byYear. rewrite Hno. by destruct (noYear other).
Qed.

Lemma C10_witness :
  img_year0 ∈ [img_loc; img_year0] ∧ year img_year0 = Some 0 ∧
  undatedBucket 2026 [img_loc; img_year0] ∈ periods 2026 [img_loc; img_year0].
Proof.
  assert (img_year0 ∈ [img_loc; img_year0]) as Hin by (right; left).
  split; [exact Hin|]. split; [reflexivity|].
  exact (proj1 (proj2 (C10_year_zero_is_undated 2026 _ img_year0 Hin eq_refl))).
Defined.

(** ** Ordering of the periods *)

Lemma findPeriod_2020s now img :
  2020 ≤ yearOf img ≤ now → findPeriod now img = Some (mkDef "2020s" 2020 now).
Proof.
  intros [Hlo Hhi]. unfold findPeriod, periodDefs. cbn [find start end_].
  rewrite (bool_decide_eq_true_2 (2020 ≤ yearOf img)) by done.
  by rewrite (bool_decide_eq_true_2 (yearOf img ≤ now)) by done.
Qed.

Lemma scenario3_labels now :
  2021 ≤ now →
  label <$> periods now scenario3 =
  ["Modern / Unknown Date"; "2020s"; "1990s"; "1920s"].
Proof.
  intros Hnow. unfold periods.
  replace (sortedImages scenario3) with scenario3 by (by vm_compute).
  assert (foldl (group now) ([], []) scenario3 =
          ([mkPeriod "2020s" 2020 now
              [photo "a" "https://x.com/a.jpg" "google" (Some 2021)];
            mkPeriod "1990s" 1990 1999
              [photo "b" "https://x.com/b.jpg" "loc" (Some 1995)];
            mkPeriod "1920s" 1920 1929
              [photo "c" "https://x.com/c.jpg" "loc" (Some 1923)]],
           [photo "d" "https://x.com/d.jpg" "bing" None])) as ->.
  { unfold scenario3. cbn [foldl]. unfold group.
    rewrite findPeriod_2020s by (unfold yearOf; simpl; lia).
    by vm_compute. }
  rewrite bool_decide_eq_true_2 by (simpl; lia).
  unfold JsArray.sort, byStartYear. cbn [foldr app JsArray.insert startYear].
  repeat first [ rewrite decide_True by lia
               | rewrite decide_False by lia
               | progress cbn [JsArray.insert startYear] ].
  reflexivity.
Qed.

(** On the boundary, a clock that reads 2020, the undated bucket and the
    2020s period have the same start year and the stable sort leaves the
    undated bucket, pushed last, behind it. *)
Remark periods_clock_2020 :
  label <$> periods 2020 [photo "d" "https://x.com/d.jpg" "bing" None;
                          photo "a" "https://x.com/a.jpg" "google" (Some 2020)]
  = ["2020s"; "Modern / Unknown Date"].
Proof. by vm_compute. Qed.

Lemma StronglySorted_weaken {A} (R1 R2 : A → A → Prop) (l : list A) :
  (∀ a b, R1 a b → R2 a b) → StronglySorted R1 l → StronglySorted R2 l.
Proof.
  intros Himp. induction 1 as [|x l Hl IH Hx]; constructor; [done|].
  eapply Forall_impl; [exact Hx|]. intros y. apply Himp.
Qed.

Lemma periods_sorted now imgs :
  StronglySorted (λ a b, startYear b ≤ startYear a) (periods now imgs).
Proof.
  unfold periods.
  destruct (foldl (group now) ([], []) (sortedImages imgs)) as [result undated].
  eapply StronglySorted_weaken;
    [|apply sort_sorted; [apply byStartYear_total | apply byStartYear_trans]].
  unfold JsArray.before, byStartYear. intros a b. lia.
Qed.

Lemma periods_nonempty now imgs r : r ∈ periods now imgs → images r ≠ [].
Proof. intros [[_ H] | (_ & H & _)]%periods_elem; done. Qed.

Lemma periods_dated_start now imgs r :
  r ∈ periods now imgs → label r ≠ undatedLabel → startYear r ≤ 2020.
Proof.
  intros [[-> _] | (_ & _ & _ & Hdef)]%periods_elem Hl; [done|].
  by apply periodDefs_facts in Hdef as [_ Hs].
Qed.

(** C8. From 2021 on: the periods of the output are in descending order of
    their start year; no period of the output is without images; the
    undated bucket has the current year as its start year and, when
    present, is the first period, every other period (the 2020s period
    among them) starting strictly earlier; and the records with years 2021,
    1995, 1923 and none give exactly the periods [Modern / Unknown Date],
    [2020s], [1990s], [1920s] in this order. *)
Theorem C8_periods_order (now : Z) (imgs : list ImageResult) :
  2021 ≤ now →
  StronglySorted (λ a b, startYear b ≤ startYear a) (periods now imgs) ∧
  (∀ r, r ∈ periods now imgs → images r ≠ []) ∧
  (∀ u, u ∈ periods now imgs → label u = "Modern / Unknown Date" →
        startYear u = now ∧
        ∃ rest, periods now imgs = u :: rest ∧
                ∀ r, r ∈ rest → startYear r < startYear u) ∧
  label <$> periods now scenario3 =
    ["Modern / Unknown Date"; "2020s"; "1990s"; "1920s"].
Proof.
  intros Hnow.
  split; [apply periods_sorted|].
  split; [apply periods_nonempty|].
  split; [|by apply scenario3_labels].
  intros u Hu Hlu.
  assert (startYear u = now) as Hstart.
  { apply periods_elem in Hu as [[-> _] | (Hl & _)]; done. }
  split; [done|].
  pose proof (periods_sorted now imgs) as Hsorted.
  pose proof (periods_NoDup now imgs) as Hnd.
  pose proof (periods_dated_start now imgs) as Hdated.
  pose proof (periods_label_inj now imgs) as Hinj.
  destruct (periods now imgs) as [|x rest]; [inversion Hu|].
  apply StronglySorted_inv in Hsorted as [_ Hx].
  rewrite fmap_cons in Hnd. apply NoDup_cons in Hnd as [Hxl _].
  assert (x = u) as ->.
  { apply elem_of_cons in Hu as [->|Hu]; [done|].
    destruct (decide (label x = undatedLabel)) as [Hlx|Hlx].
    - apply Hinj; [left | by right | by rewrite Hlx, Hlu].
    - rewrite Forall_forall in Hx. specialize (Hx u Hu). simpl in Hx.
      specialize (Hdated x (ltac:(left)) Hlx). lia. }
  exists rest. split; [done|]. intros r Hr.
  assert (label r ≠ undatedLabel) as Hlr.
  { intros Hlr. apply Hxl.
    replace (label u) with (label r) by (by rewrite Hlr, Hlu).
    apply list_elem_of_fmap. eauto. }
  specialize (Hdated r (ltac:(by right)) Hlr). lia.
Qed.

Lemma C8_witness :
  2021 ≤ 2026 ∧
  label <$> periods 2026 scenario3 =
    ["Modern / Unknown Date"; "2020s"; "1990s"; "1920s"].
Proof.
  assert (2021 ≤ 2026) as Hnow by lia.
  split; [exact Hnow|].
  exact (proj2 (proj2 (proj2 (C8_periods_order 2026 scenario3 Hnow)))).
Defined.

(** * Further properties *)

(** ** De-duplication keeps every canonical url once *)

Lemma uniqueImages_from_keys (seen : gset string) (l : list ImageResult) :
  list_to_set (key <$> uniqueImages_from seen l) ∪ seen =
  list_to_set (key <$> l) ∪ seen.
Proof.
  revert seen. induction l as [|a l IH]; intros seen; [done|].
  cbn [uniqueImages_from]. rewrite fmap_cons, list_to_set_cons.
  case_decide as Hin.
  - rewrite IH. set_solver.
  - rewrite fmap_cons, list_to_set_cons.
    specialize (IH ({[key a]} ∪ seen)). revert IH.
    generalize (list_to_set (key <$> uniqueImages_from ({[key a]} ∪ seen) l)
                : gset string).
    generalize (list_to_set (key <$> l) : gset string).
    intros B A IH.
    transitivity (A ∪ ({[key a]} ∪ seen)); [clear; set_solver|].
    rewrite IH. clear. set_solver.
Qed.

Lemma uniqueImages_from_distinct (seen : gset string) (l : list ImageResult) :
  NoDup (key <$> l) → (∀ r, r ∈ l → key r ∉ seen) →
  uniqueImages_from seen l = l.
Proof.
  revert seen. induction l as [|a l IH]; intros seen; [done|].
  rewrite fmap_cons, NoDup_cons. intros [Ha Hl] Hseen.
  cbn [uniqueImages_from]. rewrite decide_False by (apply Hseen; left).
  f_equal. apply IH; [done|]. intros r Hr.
  rewrite not_elem_of_union, not_elem_of_singleton. split.
  - intros Heq. apply Ha. rewrite <- Heq. apply list_elem_of_fmap. eauto.
  - apply Hseen. by right.
Qed.

Lemma uniqueImages_keys (l : list ImageResult) (k : string) :
  k ∈ key <$> uniqueImages l ↔ k ∈ key <$> l.
Proof.
  pose proof (uniqueImages_from_keys ∅ l) as Hkeys.
  rewrite !(right_id_L ∅ (∪)) in Hkeys. fold (uniqueImages l) in Hkeys.
  rewrite <- !(elem_of_list_to_set (C := gset string)). by rewrite Hkeys.
Qed.

(** X1. The output of [uniqueImages] has exactly the canonical urls of the
    input, and as many records as the input has distinct canonical urls. *)
Theorem X1_uniqueImages_one_record_per_key (l : list ImageResult) :
  (∀ k, k ∈ key <$> uniqueImages l ↔ k ∈ key <$> l) ∧
  length (uniqueImages l) = size (list_to_set (key <$> l) : gset string).
Proof.
  pose proof (uniqueImages_from_keys ∅ l) as Hkeys.
  rewrite !(right_id_L ∅ (∪)) in Hkeys. fold (uniqueImages l) in Hkeys.
  split; [intros k; apply uniqueImages_keys|].
  - rewrite <- Hkeys, size_list_to_set by apply uniqueImages_from_NoDup.
    by rewrite length_fmap.
Qed.

(** X2. [uniqueImages] returns its input unchanged exactly when no two
    records of the input have the same canonical url. *)
Theorem X2_uniqueImages_fixpoint_iff_distinct (l : list ImageResult) :
  uniqueImages l = l ↔ NoDup (key <$> l).
Proof.
  split.
  - intros <-. apply uniqueImages_from_NoDup.
  - intros Hnd. apply uniqueImages_from_distinct; [done|]. set_solver.
Qed.

(** ** The response of a valid request *)

(** X3. For a non-empty location the handler calls the queued adapters and
    answers in one of two ways. It answers with the 500 error exactly when
    a called adapter returned a record with a url that is not a string.
    Otherwise it answers with a success whose count is the number of
    images; no two images have the same canonical url; every image was
    contributed by an adapter that was called; and every canonical url that
    a called adapter contributed is the canonical url of an image of the
    response. *)
Theorem X3_GET_response_sound_and_complete
    (fetchImages : string → string → Outcome (list Fetched))
    (Rng : Type) (Math_random : Rng → Q * Rng)
    (location : string) (sourcesParam : option string) (g : Rng) :
  location ≠ "" →
  invoked (GET fetchImages Rng Math_random (Some location) sourcesParam g)
    = queued (sourcesOf sourcesParam) ∧
  match response (GET fetchImages Rng Math_random (Some location) sourcesParam g) with
  | Error status _ =>
      status = 500 ∧
      ∃ adapter, adapter ∈ queued (sourcesOf sourcesParam) ∧
                 UrlNotString ∈ contribution fetchImages location adapter
  | Ok imgs count _ =>
      count = length imgs ∧
      NoDup (key <$> imgs) ∧
      (∀ adapter, adapter ∈ queued (sourcesOf sourcesParam) →
                  UrlNotString ∉ contribution fetchImages location adapter) ∧
      (∀ img, img ∈ imgs →
         ∃ adapter, adapter ∈ queued (sourcesOf sourcesParam) ∧
                    WellFormed img ∈ contribution fetchImages location adapter) ∧
      (∀ adapter img,
         adapter ∈ queued (sourcesOf sourcesParam) →
         WellFormed img ∈ contribution fetchImages location adapter →
         ∃ img', img' ∈ imgs ∧ key img' = key img)
  end.
Proof.
  intros Hne. split; [by rewrite GET_valid|].
  pose proof (GET_response fetchImages Rng Math_random location sourcesParam g Hne)
    as Hresp. cbn zeta in Hresp.
  set (items := concat (contribution fetchImages location <$>
                          queued (sourcesOf sourcesParam))) in *.
  assert (∀ item, item ∈ items ↔
            ∃ adapter, adapter ∈ queued (sourcesOf sourcesParam) ∧
                       item ∈ contribution fetchImages location adapter) as Hall.
  { intros item. unfold items. rewrite elem_of_concat. split.
    - intros (l & Hitem & (a & -> & Ha)%list_elem_of_fmap). eauto.
    - intros (a & Ha & Hitem). eexists. split; [done|].
      apply list_elem_of_fmap. eauto. }
  case_decide as Hbad.
  - rewrite Hresp. split; [done|]. by apply Hall.
  - destruct Hresp as (all & Hitems & ->). cbn zeta.
    pose proof (sortM_perm (coin Rng Math_random) (uniqueImages all) g) as Hperm.
    fold (shuffled Rng Math_random (uniqueImages all) g) in Hperm.
    assert (∀ img, WellFormed img ∈ items ↔ img ∈ all) as Hwf.
    { intros img. rewrite Hitems, list_elem_of_fmap. split.
      - by intros (img' & [= ->] & Hin).
      - intros Hin. eauto. }
    split; [done|].
    split; [rewrite Hperm; apply uniqueImages_from_NoDup|].
    split; [intros a Ha Hin; apply Hbad, Hall; eauto|].
    split.
    + intros img Himg. rewrite Hperm in Himg.
      apply uniqueImages_from_elem in Himg as [Himg _].
      by apply Hall, Hwf.
    + intros a img Ha Himg.
      assert (key img ∈ key <$> uniqueImages all)
        as (img' & Hk & Hin)%list_elem_of_fmap.
      { apply uniqueImages_keys. apply list_elem_of_fmap.
        exists img. split; [done|]. apply Hwf, Hall. eauto. }
      exists img'. split; [by rewrite Hperm | done].
Qed.

Lemma X3_witness :
  "Hilo" ≠ "" ∧
  invoked (GET fetch_murl nat Math_random_sample (Some "Hilo")
               (Some "loc,bing") 0%nat) = ["bing"; "loc"].
Proof.
  assert ("Hilo" ≠ "") as Hne by discriminate.
  split; [exact Hne|].
  exact (proj1 (X3_GET_response_sound_and_complete fetch_murl nat
                  Math_random_sample "Hilo" (Some "loc,bing") 0%nat Hne)).
Defined.

(** X4. When every adapter that is called throws or finds nothing, a
    request with a non-empty location still succeeds, with no image, the
    count 0 and no source. *)
Theorem X4_GET_all_adapters_empty
    (fetchImages : string → string → Outcome (list Fetched))
    (Rng : Type) (Math_random : Rng → Q * Rng)
    (location : string) (sourcesParam : option string) (g : Rng) :
  location ≠ "" →
  (∀ adapter, adapter ∈ queued (sourcesOf sourcesParam) →
              contribution fetchImages location adapter = []) →
  GET fetchImages Rng Math_random (Some location) sourcesParam g =
    mkHandled (queued (sourcesOf sourcesParam)) (Ok [] 0 []).
Proof.
  intros Hne Hempty. rewrite GET_valid by done.
  assert (concat (contribution fetchImages location <$>
                    queued (sourcesOf sourcesParam)) = []) as ->; [|done].
  induction (queued (sourcesOf sourcesParam)) as [|a names IH]; [done|].
  rewrite fmap_cons. cbn [concat]. rewrite Hempty by left.
  apply IH. intros b Hb. apply Hempty. by right.
Qed.

Lemma X4_witness :
  "Hilo" ≠ "" ∧
  GET fetch_sample nat Math_random_sample (Some "Hilo") (Some "loc,nypl,bogus") 0%nat =
    mkHandled ["loc"; "nypl"] (Ok [] 0 []).
Proof.
  assert ("Hilo" ≠ "") as Hne by discriminate.
  split; [exact Hne|].
  refine (X4_GET_all_adapters_empty fetch_sample nat Math_random_sample
            "Hilo" (Some "loc,nypl,bogus") 0%nat Hne _).
  intros adapter Hin.
  apply list_elem_of_In in Hin. simpl in Hin.
  destruct Hin as [<- | [<- | []]]; reflexivity.
Defined.

(** ** Which adapters are called *)

Lemma filter_ext_elem {A} (P Q : A → Prop) `{!∀ x, Decision (P x)}
    `{!∀ x, Decision (Q x)} (l : list A) :
  (∀ x, x ∈ l → (P x ↔ Q x)) → filter P l = filter Q l.
Proof.
  induction l as [|a l IH]; intros Hext; [done|].
  rewrite !filter_cons.
  destruct (decide (P a)) as [Hp|Hp], (decide (Q a)) as [Hq|Hq].
  - f_equal. apply IH. intros x Hx. apply Hext. by right.
  - exfalso. apply Hq, (Hext a); [left | done].
  - exfalso. apply Hp, (Hext a); [left | done].
  - apply IH. intros x Hx. apply Hext. by right.
Qed.

Lemma queued_elem (sources : list string) (a : string) :
  a ∈ queued sources ↔ a ∈ adapters ∧ a ∈ sources.
Proof.
  unfold queued, JsString.includes.
  rewrite list_elem_of_filter, bool_decide_eq_true. tauto.
Qed.

(** X5. The adapters that are called depend only on which adapter names
    occur in the [sources] list: the order of the names, their repetition
    and names of no adapter change nothing. Each adapter is called at most
    once, in the fixed order of the handler. *)
Theorem X5_queued_depends_on_known_names (sources1 sources2 : list string) :
  (∀ a, a ∈ adapters → (a ∈ sources1 ↔ a ∈ sources2)) →
  queued sources1 = queued sources2 ∧
  queued sources1 `sublist_of` adapters ∧
  NoDup (queued sources1).
Proof.
  intros Hsame. split; [|split].
  - unfold queued. apply filter_ext_elem. intros a Ha.
    unfold JsString.includes. rewrite !bool_decide_eq_true. by apply Hsame.
  - apply sublist_filter.
  - apply NoDup_filter. apply (bool_decide_unpack _). by vm_compute.
Qed.

Lemma X5_witness :
  queued ["loc"; "google"] = queued ["google"; "bogus"; "loc"; "google"] ∧
  queued ["loc"; "google"] = ["google"; "loc"].
Proof.
  assert (∀ a, a ∈ adapters →
            (a ∈ ["loc"; "google"] ↔ a ∈ ["google"; "bogus"; "loc"; "google"]))
    as Hsame.
  { intros a Ha. rewrite !elem_of_cons, !elem_of_nil. split.
    - intros [->|[->|[]]]; auto.
    - intros [->|[->|[->|[->|[]]]]]; auto.
      exfalso. apply list_elem_of_In in Ha. simpl in Ha.
      repeat (destruct Ha as [Ha|Ha]; [discriminate Ha|]). done. }
  split; [|reflexivity].
  exact (proj1 (X5_queued_depends_on_known_names _ _ Hsame)).
Defined.

(** ** From the page's active sources to the server's source list *)

Lemma split_no_sep (sep : ascii) (x : string) :
  hasChar sep x = false → JsString.split sep x = [x].
Proof.
  induction x as [|c x IH]; [done|]. cbn [hasChar JsString.split].
  intros [Hc Hx]%orb_false_iff. apply bool_decide_eq_false in Hc.
  rewrite decide_False by done. by rewrite IH.
Qed.

Lemma split_app_sep (sep : ascii) (x rest : string) :
  hasChar sep x = false →
  JsString.split sep (x +:+ String sep rest) = x :: JsString.split sep rest.
Proof.
  induction x as [|c x IH]; simpl.
  - intros _. by rewrite decide_True.
  - intros [Hc Hx]%orb_false_iff. apply bool_decide_eq_false in Hc.
    rewrite decide_False by done. by rewrite IH.
Qed.

(** Splitting undoes joining when no element holds the separator. *)
Lemma split_join (xs : list string) :
  xs ≠ [] → Forall (λ x, hasChar "," x = false) xs →
  JsString.split ","%char (Page.join "," xs) = xs.
Proof.
  induction xs as [|x [|y rest] IH]; [done| |].
  - intros _ [Hx _]%Forall_cons. by apply split_no_sep.
  - intros _ [Hx Hrest]%Forall_cons.
    change (Page.join "," (x :: y :: rest))
      with (x +:+ String ","%char (Page.join "," (y :: rest))).
    rewrite split_app_sep by done. f_equal. by apply IH.
Qed.

Lemma join_nonempty (x : string) (rest : list string) :
  x ≠ "" → Page.join "," (x :: rest) ≠ "".
Proof. destruct x as [|c x]; [done|]. intros _. by destruct rest. Qed.

Lemma adapters_names (a : string) :
  a ∈ adapters → hasChar "," a = false ∧ a ≠ "".
Proof.
  unfold adapters. rewrite !elem_of_cons, elem_of_nil. intros H.
  repeat (destruct H as [-> | H]; [by split|]). done.
Qed.

(** X6. The source list that reaches the handler from the page: when at
    least one source is active the list the server splits off the query
    parameter is the page's list of active sources, so the adapters called
    are the active ones; when no source is active the parameter is empty
    and the server falls back to its seven default sources. *)
Theorem X6_active_sources_round_trip (activeSources : list string) :
  Forall (λ s, s ∈ adapters) activeSources →
  sourcesOf (Page.sourcesParamOf activeSources) =
    (if decide (activeSources = [])
     then ["google"; "bing"; "flickr"; "unsplash"; "loc"; "wikimedia"; "archive"]
     else activeSources) ∧
  ∀ a, a ∈ queued (sourcesOf (Page.sourcesParamOf activeSources)) ↔
       if decide (activeSources = [])
       then a ∈ ["google"; "bing"; "flickr"; "unsplash"; "loc"; "wikimedia"; "archive"]
       else a ∈ activeSources.
Proof.
  intros Hall.
  assert (sourcesOf (Page.sourcesParamOf activeSources) =
    (if decide (activeSources = [])
     then ["google"; "bing"; "flickr"; "unsplash"; "loc"; "wikimedia"; "archive"]
     else activeSources)) as Hsplit.
  { case_decide as Hnil; [by subst|].
    destruct activeSources as [|x rest]; [done|].
    unfold sourcesOf, Page.sourcesParamOf. cbn [JsString.falsy default from_option].
    apply Forall_cons in Hall as Hx. destruct Hx as [Hx _].
    apply adapters_names in Hx as [_ Hx].
    rewrite bool_decide_eq_false_2 by by apply join_nonempty.
    apply split_join; [done|].
    eapply Forall_impl; [exact Hall|]. intros s Hs. by apply adapters_names. }
  split; [done|]. intros a. rewrite Hsplit, queued_elem.
  case_decide as Hnil.
  - split; [tauto|]. intros Ha. split; [|done].
    revert Ha. unfold adapters. rewrite !elem_of_cons. tauto.
  - split; [tauto|]. intros Ha. split; [|done].
    rewrite Forall_forall in Hall. by apply Hall.
Qed.

Lemma X6_witness :
  Forall (λ s, s ∈ adapters) ["nypl"; "google"] ∧
  sourcesOf (Page.sourcesParamOf ["nypl"; "google"]) = ["nypl"; "google"].
Proof.
  assert (Forall (λ s, s ∈ adapters) ["nypl"; "google"]) as Hall.
  { repeat constructor. }
  split; [exact Hall|].
  exact (proj1 (X6_active_sources_round_trip ["nypl"; "google"] Hall)).
Defined.

(** ** The active sources of the page *)

Lemma filter_ne_absent (source : string) (prev : list string) :
  source ∉ prev → filter (λ s, s ≠ source) prev = prev.
Proof.
  induction prev as [|x prev IH]; [done|].
  rewrite not_elem_of_cons. intros [Hx Hprev].
  rewrite filter_cons_True by done. by rewrite IH.
Qed.

Lemma onToggleSource_elem (source : string) (prev : list string) (s : string) :
  s ∈ Page.onToggleSource source prev ↔
  if decide (s = source) then s ∉ prev else s ∈ prev.
Proof.
  unfold Page.onToggleSource, JsString.includes.
  case_bool_decide as Hin.
  - rewrite list_elem_of_filter. case_decide; [subst; tauto | tauto].
  - rewrite elem_of_app, list_elem_of_singleton.
    case_decide; [subst; tauto | tauto].
Qed.

Lemma onToggleSource_NoDup (source : string) (prev : list string) :
  NoDup prev → NoDup (Page.onToggleSource source prev).
Proof.
  intros Hnd. unfold Page.onToggleSource, JsString.includes.
  case_bool_decide as Hin; [by apply NoDup_filter|].
  apply NoDup_app. split; [done|]. split; [|apply NoDup_singleton].
  intros x Hx ->%list_elem_of_singleton. done.
Qed.

(** X7. Toggling a source in a list without repetition flips the membership
    of that source and of no other, and keeps the list free of repetition.
    Toggling twice gives back a list with the same sources: the list itself
    when the source was not active, and otherwise the list with the source
    moved to its end. *)
Theorem X7_onToggleSource_flips_one (source : string) (prev : list string) :
  NoDup prev →
  NoDup (Page.onToggleSource source prev) ∧
  (∀ s, s ∈ Page.onToggleSource source prev ↔
        if decide (s = source) then s ∉ prev else s ∈ prev) ∧
  Page.onToggleSource source (Page.onToggleSource source prev) ≡ₚ prev ∧
  Page.onToggleSource source (Page.onToggleSource source prev) =
    (if decide (source ∈ prev)
     then filter (λ s, s ≠ source) prev ++ [source]
     else prev).
Proof.
  intros Hnd.
  split; [by apply onToggleSource_NoDup|].
  split; [apply onToggleSource_elem|].
  split.
  - apply NoDup_Permutation; [by do 2 apply onToggleSource_NoDup | done |].
    intros s. rewrite !onToggleSource_elem.
    case_decide as Hs; [|rewrite onToggleSource_elem, decide_False by done; tauto].
    rewrite onToggleSource_elem, decide_True by done.
    destruct (decide (s ∈ prev)); tauto.
  - unfold Page.onToggleSource at 2. unfold JsString.includes.
    case_bool_decide as Hin.
    + rewrite decide_True by done. unfold Page.onToggleSource, JsString.includes.
      rewrite bool_decide_eq_false_2; [done|].
      rewrite list_elem_of_filter. tauto.
    + rewrite decide_False by done. unfold Page.onToggleSource, JsString.includes.
      rewrite bool_decide_eq_true_2 by (apply elem_of_app; right; left).
      rewrite filter_app, filter_ne_absent by done.
      rewrite filter_cons_False by (intros H; by apply H).
      by rewrite filter_nil, app_nil_r.
Qed.

Lemma X7_witness :
  NoDup ["google"; "loc"; "bing"] ∧
  Page.onToggleSource "loc" (Page.onToggleSource "loc" ["google"; "loc"; "bing"])
    ≡ₚ ["google"; "loc"; "bing"].
Proof.
  assert (NoDup ["google"; "loc"; "bing"]) as Hnd
    by (apply (bool_decide_unpack _); vm_compute; exact I).
  split; [exact Hnd|].
  exact (proj1 (proj2 (proj2 (X7_onToggleSource_flips_one "loc" _ Hnd)))).
Defined.

(** ** The "toggle all" buttons *)

Section ToggleAll.

Implicit Types (names prev activeSources sources : list string).

Lemma toggle_fold_remove names prev :
  NoDup names → (∀ n, n ∈ names → n ∈ prev) →
  foldl (λ prev s, Page.onToggleSource s prev) prev names =
  filter (λ s, s ∉ names) prev.
Proof.
  revert prev. induction names as [|a names IH]; intros prev.
  - intros _ _. cbn [foldl]. symmetry.
    induction prev as [|x prev IHp]; [done|].
    rewrite filter_cons_True by apply not_elem_of_nil. by rewrite IHp.
  - rewrite NoDup_cons. intros [Ha Hnd] Hin. cbn [foldl].
    unfold Page.onToggleSource at 2. unfold JsString.includes.
    rewrite bool_decide_eq_true_2 by (apply Hin; left).
    rewrite IH; [|done|].
    + rewrite list_filter_filter. apply list_filter_iff.
      intros x. rewrite not_elem_of_cons. tauto.
    + intros n Hn. apply list_elem_of_filter. split.
      * intros ->. done.
      * apply Hin. by right.
Qed.

Lemma toggle_fold_add names prev :
  NoDup names → (∀ n, n ∈ names → n ∉ prev) →
  foldl (λ prev s, Page.onToggleSource s prev) prev names = prev ++ names.
Proof.
  revert prev. induction names as [|a names IH]; intros prev.
  - intros _ _. cbn [foldl]. by rewrite app_nil_r.
  - rewrite NoDup_cons. intros [Ha Hnd] Hout. cbn [foldl].
    unfold Page.onToggleSource at 2. unfold JsString.includes.
    rewrite bool_decide_eq_false_2 by (apply Hout; left).
    rewrite IH; [by rewrite <- app_assoc|done|].
    intros n Hn. rewrite not_elem_of_app, not_elem_of_cons. split.
    + apply Hout. by right.
    + split; [intros ->; done | apply not_elem_of_nil].
Qed.

Lemma forallb_includes activeSources sources :
  forallb (JsString.includes activeSources) sources = true ↔
  ∀ s, s ∈ sources → s ∈ activeSources.
Proof.
  rewrite forallb_forall. unfold JsString.includes. split.
  - intros H s Hs. apply list_elem_of_In in Hs.
    by apply H, bool_decide_eq_true in Hs.
  - intros H s Hs. apply bool_decide_eq_true, H. by apply list_elem_of_In.
Qed.

(** The state after a "toggle all": the group is removed when all of it was
    active, and otherwise its missing sources are appended in group order. *)
Lemma toggleAll_result sources activeSources :
  NoDup sources →
  SourceFilters.toggleAll sources activeSources =
  if forallb (JsString.includes activeSources) sources
  then filter (λ s, s ∉ sources) activeSources
  else activeSources ++ filter (λ s, s ∉ activeSources) sources.
Proof.
  intros Hnd. unfold SourceFilters.toggleAll, SourceFilters.toggled.
  destruct (forallb _ sources) eqn:Hall.
  - pose proof (proj1 (forallb_includes _ _) Hall) as Hall'.
    clear Hall. rename Hall' into Hall.
    assert (filter (λ s, JsString.includes activeSources s = true) sources
            = sources) as ->.
    { clear Hnd. induction sources as [|x sources IH]; [done|].
      rewrite filter_cons_True.
      - f_equal. apply IH. intros s Hs. apply Hall. by right.
      - apply bool_decide_eq_true, Hall. left. }
    by apply toggle_fold_remove.
  - assert (filter (λ s, JsString.includes activeSources s = false) sources
            = filter (λ s, s ∉ activeSources) sources) as ->.
    { apply list_filter_iff. intros s. unfold JsString.includes.
      by rewrite bool_decide_eq_false. }
    apply toggle_fold_add; [by apply NoDup_filter|].
    intros n Hn. by apply list_elem_of_filter in Hn as [Hn _].
Qed.

Lemma toggleAll_outside sources activeSources s :
  NoDup sources → s ∉ sources →
  (s ∈ SourceFilters.toggleAll sources activeSources ↔ s ∈ activeSources).
Proof.
  intros Hnd Hs. rewrite toggleAll_result by done.
  destruct (forallb _ sources).
  - rewrite list_elem_of_filter. tauto.
  - rewrite elem_of_app, list_elem_of_filter. tauto.
Qed.

Lemma toggleAll_inside sources activeSources s :
  NoDup sources → s ∈ sources →
  (s ∈ SourceFilters.toggleAll sources activeSources ↔
   ¬ ∀ x, x ∈ sources → x ∈ activeSources).
Proof.
  intros Hnd Hs. rewrite toggleAll_result by done.
  destruct (forallb _ sources) eqn:Hall.
  - pose proof (proj1 (forallb_includes _ _) Hall) as Hall'.
    rewrite list_elem_of_filter. tauto.
  - assert (¬ ∀ x, x ∈ sources → x ∈ activeSources) as Hnot.
    { intros H. apply (proj2 (forallb_includes _ _)) in H. congruence. }
    rewrite elem_of_app, list_elem_of_filter.
    destruct (decide (s ∈ activeSources)); tauto.
Qed.

End ToggleAll.

(** X8. A "toggle all" button acts on its group only: a source outside the
    group is active afterwards exactly when it was before. Inside the group
    the result is uniform: when every source of the group was active none
    of them is active afterwards, and otherwise all of them are. This holds
    for the modern group and for the historical group. *)
Theorem X8_toggleAll_uniform_on_group (activeSources : list string) (s : string) :
  (if decide (s ∈ SourceFilters.MODERN_SOURCES)
   then s ∈ SourceFilters.toggleAllModern activeSources ↔
        ¬ ∀ x, x ∈ SourceFilters.MODERN_SOURCES → x ∈ activeSources
   else s ∈ SourceFilters.toggleAllModern activeSources ↔ s ∈ activeSources) ∧
  (if decide (s ∈ SourceFilters.HISTORICAL_SOURCES)
   then s ∈ SourceFilters.toggleAllHistorical activeSources ↔
        ¬ ∀ x, x ∈ SourceFilters.HISTORICAL_SOURCES → x ∈ activeSources
   else s ∈ SourceFilters.toggleAllHistorical activeSources ↔ s ∈ activeSources).
Proof.
  assert (NoDup SourceFilters.MODERN_SOURCES) as Hm
    by (apply (bool_decide_unpack _); by vm_compute).
  assert (NoDup SourceFilters.HISTORICAL_SOURCES) as Hh
    by (apply (bool_decide_unpack _); by vm_compute).
  split; case_decide.
  - by apply toggleAll_inside.
  - by apply toggleAll_outside.
  - by apply toggleAll_inside.
  - by apply toggleAll_outside.
Qed.

(** ** Recent searches *)

Lemma filter_ne_all (location : string) (l : list string) :
  Forall (λ s, s ≠ location) l → filter (λ s, s ≠ location) l = l.
Proof.
  induction 1 as [|x l Hx Hl IH]; [done|].
  rewrite filter_cons_True by done. by rewrite IH.
Qed.

(** X9. [addRecentSearch] stores a list that starts with the new location,
    holds it nowhere else, has at most five entries, keeps the other
    entries in their earlier order, and is unchanged when the same location
    is added again. *)
Theorem X9_addRecentSearch_front_bounded_idempotent
    (location : string) (recentSearches : list string) :
  let updated := Page.addRecentSearch location recentSearches in
  head updated = Some location ∧
  (location ∉ tail updated) ∧
  (length updated ≤ 5)%nat ∧
  tail updated `sublist_of` recentSearches ∧
  Page.addRecentSearch location updated = updated.
Proof.
  unfold Page.addRecentSearch, Page.MAX_RECENT_SEARCHES. cbn [take head tail].
  set (others := filter (λ s, s ≠ location) recentSearches).
  assert (Forall (λ s, s ≠ location) (take 4 others)) as Hne.
  { apply Forall_take. apply Forall_forall. intros s Hs.
    by apply list_elem_of_filter in Hs as [Hs _]. }
  split; [done|]. split.
  { rewrite Forall_forall in Hne. intros Hin. by apply (Hne _ Hin). }
  split.
  { cbn [length]. rewrite length_take. lia. }
  split.
  { etrans; [apply sublist_take | apply sublist_filter]. }
  rewrite filter_cons_False by (intros H; by apply H).
  rewrite filter_ne_all by done.
  f_equal. by rewrite take_take.
Qed.

(** ** Counts per source *)

Lemma sourceCounts_snoc (imgs : list ImageResult) (img : ImageResult) :
  Page.sourceCounts (imgs ++ [img]) =
  <[source img :=
      (default 0 (Page.sourceCounts imgs !! source img) + 1)%nat]>
    (Page.sourceCounts imgs).
Proof. unfold Page.sourceCounts. by rewrite foldl_app. Qed.

(** The entry of a source is the number of its images, and is missing when
    there is none. *)
Lemma sourceCounts_lookup (imgs : list ImageResult) (s : string) :
  Page.sourceCounts imgs !! s =
  let n := length (filter (λ img, source img = s) imgs) in
  if decide (n = 0)%nat then None else Some n.
Proof.
  induction imgs as [|img imgs IH] using rev_ind; [done|].
  rewrite sourceCounts_snoc, filter_app, length_app. cbn zeta in *.
  destruct (decide (source img = s)) as [<-|Hne].
  - rewrite lookup_insert_eq, IH, filter_cons_True, filter_nil by done.
    cbn [length]. case_decide as Hz.
    + rewrite Hz. by rewrite decide_False by lia.
    + rewrite decide_False by lia. done.
  - rewrite lookup_insert_ne, IH, filter_cons_False, filter_nil by done.
    cbn [length]. by rewrite Nat.add_0_r.
Qed.

Lemma distinct_set (xs : list string) :
  (list_to_set (JsArray.distinct xs) : gset string) = list_to_set xs.
Proof.
  apply set_eq. intros x. rewrite !elem_of_list_to_set.
  unfold JsArray.distinct. rewrite distinct_from_elem. set_solver.
Qed.

(** X10. For images that carry adapter names as their source: the count the
    page shows on the tab of a source is the number of images shown when
    that tab is selected; a source has a tab exactly when it has an image;
    and the number of tabs is the length of the [sources] list that the
    server builds from the same images. *)
Theorem X10_sourceCounts_match_tabs (imgs : list ImageResult) :
  Forall (λ img, source img ∈ adapters) imgs →
  (∀ s, s ∈ adapters →
        default 0%nat (Page.sourceCounts imgs !! s) =
        length (Page.filteredImages s imgs)) ∧
  (∀ s, is_Some (Page.sourceCounts imgs !! s) ↔ s ∈ source <$> imgs) ∧
  size (Page.sourceCounts imgs) = length (JsArray.distinct (source <$> imgs)).
Proof.
  intros _.
  assert (∀ s, is_Some (Page.sourceCounts imgs !! s) ↔ s ∈ source <$> imgs)
    as Hdom.
  { intros s. rewrite sourceCounts_lookup. cbn zeta.
    rewrite list_elem_of_fmap. split.
    - case_decide as Hz; [by intros [? ?]|]. intros _.
      destruct (filter (λ img, source img = s) imgs) as [|img rest] eqn:Hf;
        [done|].
      assert (img ∈ filter (λ img, source img = s) imgs) as Hin
        by (rewrite Hf; left).
      apply list_elem_of_filter in Hin as [Hs Hin]. eauto.
    - intros (img & -> & Hin).
      assert (img ∈ filter (λ x, source x = source img) imgs) as Hf
        by by apply list_elem_of_filter.
      destruct (filter (λ x, source x = source img) imgs); [inversion Hf|].
      by rewrite decide_False. }
  split; [|split; [done|]].
  - intros s Hs. rewrite sourceCounts_lookup. cbn zeta.
    unfold Page.filteredImages.
    rewrite (decide_False (P := s = "all")),
            (decide_False (P := s = "historical")).
    + generalize (length (filter (λ img, source img = s) imgs)).
      by intros [|n].
    + intros ->. revert Hs. unfold adapters.
      rewrite !elem_of_cons, elem_of_nil. intros H.
      repeat (destruct H as [H|H]; [discriminate H|]). done.
    + intros ->. revert Hs. unfold adapters.
      rewrite !elem_of_cons, elem_of_nil. intros H.
      repeat (destruct H as [H|H]; [discriminate H|]). done.
  - rewrite <- size_dom.
    assert (dom (Page.sourceCounts imgs) = list_to_set (source <$> imgs)) as ->.
    { apply set_eq. intros s. by rewrite elem_of_dom, Hdom, elem_of_list_to_set. }
    rewrite <- distinct_set.
    apply size_list_to_set, distinct_from_NoDup.
Qed.

Lemma X10_witness :
  Forall (λ img, source img ∈ adapters) [img_loc; img_google; img_year0; img_loc] ∧
  size (Page.sourceCounts [img_loc; img_google; img_year0; img_loc]) =
    length (JsArray.distinct (source <$> [img_loc; img_google; img_year0; img_loc])).
Proof.
  assert (Forall (λ img, source img ∈ adapters)
            [img_loc; img_google; img_year0; img_loc]) as Hall
    by repeat constructor.
  split; [exact Hall|].
  exact (proj2 (proj2 (X10_sourceCounts_match_tabs _ Hall))).
Defined.

(** ** The timeline header *)

Lemma Math_min_spec (y : Z) (ys : list Z) :
  Math_min y ys ∈ y :: ys ∧ ∀ z, z ∈ y :: ys → Math_min y ys ≤ z.
Proof.
  unfold Math_min. induction ys as [|x ys [IHin IHle]]; cbn [foldr].
  - split; [left|]. intros z ->%list_elem_of_singleton. lia.
  - split.
    + destruct (Z.min_spec x (foldr Z.min y ys)) as [[_ ->]|[_ ->]].
      * right; left.
      * apply elem_of_cons in IHin as [->|Hin]; [left | by do 2 right].
    + intros z Hz.
      assert (z = x ∨ z ∈ y :: ys) as [->|Hz'].
      { revert Hz. rewrite !elem_of_cons. tauto. }
      * lia.
      * specialize (IHle z Hz'). lia.
Qed.

Lemma Math_max_spec (y : Z) (ys : list Z) :
  Math_max y ys ∈ y :: ys ∧ ∀ z, z ∈ y :: ys → z ≤ Math_max y ys.
Proof.
  unfold Math_max. induction ys as [|x ys [IHin IHle]]; cbn [foldr].
  - split; [left|]. intros z ->%list_elem_of_singleton. lia.
  - split.
    + destruct (Z.max_spec x (foldr Z.max y ys)) as [[_ ->]|[_ ->]].
      * apply elem_of_cons in IHin as [->|Hin]; [left | by do 2 right].
      * right; left.
    + intros z Hz.
      assert (z = x ∨ z ∈ y :: ys) as [->|Hz'].
      { revert Hz. rewrite !elem_of_cons. tauto. }
      * lia.
      * specialize (IHle z Hz'). lia.
Qed.

Lemma yearsOf_elem (imgs : list ImageResult) (y : Z) :
  y ∈ yearsOf imgs ↔ ∃ img, img ∈ imgs ∧ noYear img = false ∧ yearOf img = y.
Proof.
  unfold yearsOf. rewrite list_elem_of_fmap. split.
  - intros (img & -> & [Hy Hin]%list_elem_of_filter). eauto.
  - intros (img & Hin & Hy & <-). exists img. split; [done|].
    by apply list_elem_of_filter.
Qed.

Lemma yearRange_spec (imgs : list ImageResult) :
  match yearRange imgs with
  | None => ∀ img, img ∈ imgs → noYear img = true
  | Some r =>
      (∃ img, img ∈ imgs ∧ noYear img = false ∧ yearOf img = range_min r) ∧
      (∃ img, img ∈ imgs ∧ noYear img = false ∧ yearOf img = range_max r) ∧
      (∀ img, img ∈ imgs → noYear img = false →
              range_min r ≤ yearOf img ≤ range_max r) ∧
      span r = range_max r - range_min r ∧ 0 ≤ span r
  end.
Proof.
  unfold yearRange. pose proof (yearsOf_elem imgs) as Helem.
  destruct (yearsOf imgs) as [|y ys].
  - intros img Hin. destruct (noYear img) eqn:Hy; [done|].
    exfalso. eapply not_elem_of_nil. apply Helem. eauto.
  - cbn [range_min range_max span].
    destruct (Math_min_spec y ys) as [Hmin_in Hmin].
    destruct (Math_max_spec y ys) as [Hmax_in Hmax].
    split; [by apply Helem|]. split; [by apply Helem|].
    split; [|split; [done|]].
    + intros img Hin Hy.
      assert (yearOf img ∈ y :: ys) as Hyin by (apply Helem; eauto).
      split; [by apply Hmin | by apply Hmax].
    + specialize (Hmin _ Hmax_in). lia.
Qed.

(** X11. [yearRange] is absent exactly when no image has a year (a year 0
    counts as none). Otherwise its [min] and [max] are years of images,
    every image with a year lies between them, and [span] is their
    difference, never negative. *)
Theorem X11_yearRange_bounds (imgs : list ImageResult) :
  match yearRange imgs with
  | None => ∀ img, img ∈ imgs → noYear img = true
  | Some r =>
      (∃ img, img ∈ imgs ∧ noYear img = false ∧ yearOf img = range_min r) ∧
      (∃ img, img ∈ imgs ∧ noYear img = false ∧ yearOf img = range_max r) ∧
      (∀ img, img ∈ imgs → noYear img = false →
              range_min r ≤ yearOf img ≤ range_max r) ∧
      span r = range_max r - range_min r ∧ 0 ≤ span r
  end.
Proof. apply yearRange_spec. Qed.

(** X12. Whenever the timeline has a dated period, the header has a year
    range, and the year of every image of the period lies within it. *)
Theorem X12_yearRange_covers_dated_periods
    (now : Z) (imgs : list ImageResult) (r : TimelinePeriod) :
  r ∈ periods now imgs → label r ≠ undatedLabel →
  ∃ rg, yearRange imgs = Some rg ∧
        ∀ img, img ∈ images r → range_min rg ≤ yearOf img ≤ range_max rg.
Proof.
  intros Hr Hl.
  pose proof (periods_image now imgs r) as Himg.
  pose proof (periods_nonempty now imgs r Hr) as Hne.
  pose proof (yearRange_spec imgs) as Hrange.
  assert (∀ img, img ∈ images r → img ∈ imgs ∧ noYear img = false) as Hdated.
  { intros img Hin. apply (Himg img Hr) in Hin as [Hin Hper].
    rewrite decide_False in Hper by done. split; [done|].
    unfold inPeriod in Hper. apply andb_true_iff in Hper as [Hy _].
    by apply negb_true_iff in Hy. }
  destruct (yearRange imgs) as [rg|].
  - exists rg. split; [done|]. intros img Hin.
    destruct (Hdated img Hin) as [Hin' Hy].
    destruct Hrange as (_ & _ & Hbounds & _). by apply Hbounds.
  - exfalso. destruct (images r) as [|img rest]; [done|].
    destruct (Hdated img) as [Hin Hy]; [left|].
    specialize (Hrange img Hin). congruence.
Qed.

Lemma X12_witness :
  mkPeriod "1920s" 1920 1929 [img_loc] ∈ periods 2026 [img_google; img_loc; img_future] ∧
  "1920s" ≠ undatedLabel ∧
  ∃ rg, yearRange [img_google; img_loc; img_future] = Some rg ∧
        ∀ img, img ∈ [img_loc] → range_min rg ≤ yearOf img ≤ range_max rg.
Proof.
  assert (mkPeriod "1920s" 1920 1929 [img_loc]
            ∈ periods 2026 [img_google; img_loc; img_future]) as Hr
    by (vm_compute; right; left).
  assert ("1920s" ≠ undatedLabel) as Hl by discriminate.
  split; [exact Hr|]. split; [exact Hl|].
  exact (X12_yearRange_covers_dated_periods 2026 _ _ Hr Hl).
Defined.

(** ** Order and range inside a period *)

Lemma byYear_total a b :
  JsArray.before byYear a b ∨ JsArray.before byYear b a.
Proof.
  unfold JsArray.before, byYear.
  destruct (noYear a), (noYear b); simpl; lia.
Qed.

Lemma byYear_trans a b c :
  JsArray.before byYear a b → JsArray.before byYear b c →
  JsArray.before byYear a c.
Proof.
  unfold JsArray.before, byYear.
  destruct (noYear a), (noYear b), (noYear c); simpl; lia.
Qed.

Lemma StronglySorted_filter_keep {A} (R : A → A → Prop) (P : A → Prop)
    `{!∀ x, Decision (P x)} (l : list A) :
  StronglySorted R l → StronglySorted R (filter P l).
Proof.
  induction 1 as [|x l Hl IH Hx]; [constructor|].
  rewrite filter_cons. case_decide; [|done].
  constructor; [done|].
  apply Forall_forall. intros y [_ Hy]%list_elem_of_filter.
  rewrite Forall_forall in Hx. by apply Hx.
Qed.

Lemma periodDefs_label_inj now (d1 d2 : PeriodDef) :
  d1 ∈ periodDefs now → d2 ∈ periodDefs now →
  def_label d1 = def_label d2 → d1 = d2.
Proof.
  unfold periodDefs. rewrite !elem_of_cons, !elem_of_nil. intros H1 H2.
  repeat (destruct H1 as [-> | H1];
          [repeat (destruct H2 as [-> | H2];
                   [first [done | discriminate]|]); done|]).
  done.
Qed.

(** The images of a dated period have a year inside the bounds of the
    period. *)
Lemma periods_dated_range now imgs r img :
  r ∈ periods now imgs → label r ≠ undatedLabel → img ∈ images r →
  noYear img = false ∧ startYear r ≤ yearOf img ≤ endYear r.
Proof.
  intros Hr Hl Hin.
  apply (periods_image now imgs r img Hr) in Hin as [_ Hper].
  rewrite decide_False in Hper by done.
  destruct (periods_elem now imgs r Hr) as [[-> _] | (_ & _ & _ & Hdef)]; [done|].
  unfold inPeriod in Hper.
  apply andb_true_iff in Hper as [Hy%negb_true_iff Hfind%bool_decide_eq_true].
  split; [done|].
  destruct (findPeriod now img) as [d|] eqn:Hd; [|done].
  injection Hfind as Hlab.
  assert (d = mkDef (label r) (startYear r) (endYear r)) as ->.
  { eapply periodDefs_label_inj; [by eapply findPeriod_In | done | done]. }
  by destruct (findPeriod_first now img _ Hd) as (_ & _ & _ & Hc & _).
Qed.

(** X13. Inside a dated period of the output every image has a year other
    than 0 that lies between the start year and the end year of the period,
    and the images stand in descending order of year. *)
Theorem X13_dated_period_images_in_range_and_order
    (now : Z) (imgs : list ImageResult) (r : TimelinePeriod) :
  r ∈ periods now imgs → label r ≠ undatedLabel →
  Forall (λ img, noYear img = false ∧ startYear r ≤ yearOf img ≤ endYear r)
         (images r) ∧
  StronglySorted (λ a b, yearOf b ≤ yearOf a) (images r).
Proof.
  intros Hr Hl.
  assert (Forall (λ img, noYear img = false ∧
                         startYear r ≤ yearOf img ≤ endYear r) (images r)) as Hall.
  { apply Forall_forall. intros img Hin. by eapply periods_dated_range. }
  split; [done|].
  destruct (periods_elem now imgs r Hr) as [[-> _] | (_ & _ & Himgs & _)]; [done|].
  pose proof (sort_sorted byYear byYear_total byYear_trans imgs) as Hsorted.
  fold (sortedImages imgs) in Hsorted.
  apply (StronglySorted_filter_keep _
           (λ img, inPeriod now (label r) img = true)) in Hsorted.
  rewrite <- Himgs in Hsorted. revert Hall Hsorted. clear.
  induction (images r) as [|a l IH]; [constructor|].
  intros [Ha Hl]%Forall_cons [Hs Hfa]%StronglySorted_inv.
  constructor; [by apply IH|].
  rewrite Forall_forall in *. intros b Hb.
  specialize (Hfa b Hb). destruct (Hl b Hb) as [Hb' _]. destruct Ha as [Ha _].
  unfold JsArray.before, byYear in Hfa. rewrite Ha, Hb' in Hfa. simpl in Hfa. lia.
Qed.

Lemma X13_witness :
  mkPeriod "1920s" 1920 1929 [img_loc] ∈ periods 2026 [img_google; img_loc; img_future] ∧
  "1920s" ≠ undatedLabel ∧
  StronglySorted (λ a b, yearOf b ≤ yearOf a) [img_loc].
Proof.
  assert (mkPeriod "1920s" 1920 1929 [img_loc]
            ∈ periods 2026 [img_google; img_loc; img_future]) as Hr
    by (vm_compute; right; left).
  assert ("1920s" ≠ undatedLabel) as Hl by discriminate.
  split; [exact Hr|]. split; [exact Hl|].
  exact (proj2 (X13_dated_period_images_in_range_and_order 2026 _ _ Hr Hl)).
Defined.

(** ** Images of the same year keep their input order *)

Lemma byYear_after_year x y' (y : Z) :
  year x = Some y → ¬ byYear x y' ≤ 0 → year y' ≠ Some y.
Proof.
  unfold byYear, noYear, yearOf. intros -> Hcmp Hy'. rewrite Hy' in Hcmp.
  simpl in Hcmp. destruct (bool_decide (y = 0)); simpl in Hcmp; lia.
Qed.

Lemma insert_byYear_same_year (y : Z) x (sorted : list ImageResult) :
  filter (λ img, year img = Some y) (JsArray.insert byYear x sorted) =
  filter (λ img, year img = Some y) (x :: sorted).
Proof.
  induction sorted as [|z rest IH]; [done|]. cbn [JsArray.insert].
  case_decide as Hcmp; [done|].
  rewrite (filter_cons _ z), IH, (filter_cons _ x), (filter_cons _ x),
    (filter_cons _ z).
  destruct (decide (year x = Some y)) as [Hx|Hx]; [|done].
  destruct (decide (year z = Some y)) as [Hz|Hz]; [exfalso|done].
  exact (byYear_after_year x z y Hx Hcmp Hz).
Qed.

Lemma sortedImages_same_year (y : Z) (imgs : list ImageResult) :
  filter (λ img, year img = Some y) (sortedImages imgs) =
  filter (λ img, year img = Some y) imgs.
Proof.
  induction imgs as [|x rest IH]; [done|].
  unfold sortedImages in *. cbn [JsArray.sort foldr].
  fold (JsArray.sort byYear rest).
  rewrite insert_byYear_same_year, !filter_cons. by rewrite IH.
Qed.

(** X14. The sort is stable inside a period: when an image with a year is
    in a period of the output, the images of the input with that same year
    are all in that period, in their input order. *)
Theorem X14_same_year_keeps_input_order
    (now : Z) (imgs : list ImageResult) (r : TimelinePeriod)
    (img : ImageResult) (y : Z) :
  r ∈ periods now imgs → img ∈ images r → year img = Some y →
  filter (λ x, year x = Some y) (images r) =
  filter (λ x, year x = Some y) imgs.
Proof.
  intros Hr Hin Hy.
  assert (∀ x, year x = Some y → noYear x = noYear img ∧
               ∀ l, inPeriod now l x = inPeriod now l img) as Hsame.
  { intros x Hx. unfold inPeriod, findPeriod, noYear, yearOf.
    by rewrite Hx, Hy. }
  pose proof (proj1 (periods_image now imgs r img Hr) Hin) as [_ Hper].
  destruct (periods_elem now imgs r Hr) as [[-> _] | (Hl & _ & Himgs & _)].
  - unfold undatedBucket in *. cbn [images label] in *.
    rewrite decide_True in Hper by done.
    rewrite list_filter_filter. apply list_filter_iff. intros x.
    split; [tauto|]. intros Hx. split; [done|].
    destruct (Hsame x Hx) as [-> _]. done.
  - rewrite decide_False in Hper by done.
    rewrite Himgs, list_filter_filter.
    rewrite <- (sortedImages_same_year y imgs).
    apply list_filter_iff. intros x. split; [tauto|]. intros Hx.
    split; [done|]. destruct (Hsame x Hx) as [_ ->]. done.
Qed.

Lemma X14_witness :
  mkPeriod "1920s" 1920 1929 [img_loc; img_loc]
    ∈ periods 2026 [img_loc; img_google; img_loc] ∧
  img_loc ∈ [img_loc; img_loc] ∧ year img_loc = Some 1923 ∧
  filter (λ x, year x = Some 1923) [img_loc; img_loc] =
  filter (λ x, year x = Some 1923) [img_loc; img_google; img_loc].
Proof.
  assert (mkPeriod "1920s" 1920 1929 [img_loc; img_loc]
            ∈ periods 2026 [img_loc; img_google; img_loc]) as Hr
    by (vm_compute; right; left).
  assert (img_loc ∈ [img_loc; img_loc]) as Hin by left.
  split; [exact Hr|]. split; [exact Hin|]. split; [reflexivity|].
  exact (X14_same_year_keeps_input_order 2026 _ _ img_loc 1923 Hr Hin eq_refl).
Defined.

(** ** The list of periods *)

(** X15. The periods of the output have pairwise distinct labels, each
    dated period carries the label and the bounds of an entry of the table,
    and there are at most sixteen periods. *)
Theorem X15_periods_distinct_labels_from_table (now : Z) (imgs : list ImageResult) :
  NoDup (label <$> periods now imgs) ∧
  Forall (λ r, label r = undatedLabel ∨
               mkDef (label r) (startYear r) (endYear r) ∈ periodDefs now)
         (periods now imgs) ∧
  (length (periods now imgs) ≤ 16)%nat.
Proof.
  pose proof (periods_NoDup now imgs) as Hnd.
  assert (Forall (λ r, label r = undatedLabel ∨
                       mkDef (label r) (startYear r) (endYear r) ∈ periodDefs now)
                 (periods now imgs)) as Htab.
  { apply Forall_forall. intros r [[-> _] | (_ & _ & _ & Hdef)]%periods_elem;
      [by left | by right]. }
  split; [done|]. split; [done|].
  rewrite <- (length_fmap label).
  change 16%nat with (length (undatedLabel :: (def_label <$> periodDefs now))).
  apply submseteq_length, NoDup_submseteq; [done|].
  intros l (r & -> & Hr)%list_elem_of_fmap.
  rewrite Forall_forall in Htab. destruct (Htab r Hr) as [-> | Hdef]; [left|].
  right. apply list_elem_of_fmap. eexists. split; [|exact Hdef]. done.
Qed.

(** ** Years extracted from text *)

Section YearMatchProps.

Import YearMatch.

Lemma isDigit_digit (c : ascii) : isDigit c = true → 0 ≤ digit c ≤ 9.
Proof.
  unfold isDigit, digit.
  intros [Hlo%N.leb_le Hhi%N.leb_le]%andb_true_iff. lia.
Qed.

Lemma isDigit02_digit (c : ascii) : isDigit02 c = true → 0 ≤ digit c ≤ 2.
Proof.
  unfold isDigit02, digit.
  intros [Hlo%N.leb_le Hhi%N.leb_le]%andb_true_iff. lia.
Qed.

Lemma isDigit02_isDigit (c : ascii) : isDigit02 c = true → isDigit c = true.
Proof.
  unfold isDigit02, isDigit.
  intros [Hlo Hhi%N.leb_le]%andb_true_iff. rewrite Hlo. simpl.
  apply N.leb_le. lia.
Qed.

(** What a match at the front of the text consists of. *)
Lemma yearHere_Some (s : string) (y : Z) :
  yearHere s = Some y →
  ∃ a b c d post,
    s = String a (String b (String c (String d post))) ∧
    isDigit a = true ∧ isDigit b = true ∧ isDigit c = true ∧ isDigit d = true ∧
    y = 1000 * digit a + 100 * digit b + 10 * digit c + digit d ∧
    boundaryAfter post = true ∧
    1000 ≤ y ≤ 2029.
Proof.
  destruct s as [|a [|b [|c [|d post]]]]; try done. cbn [yearHere].
  destruct (boundaryAfter post) eqn:Hpost; [|by rewrite andb_false_r].
  rewrite andb_true_r.
  destruct (_ || _) eqn:Hpat; [|done]. intros [= <-].
  exists a, b, c, d, post. split; [done|].
  apply orb_true_iff in Hpat as [Hpat | Hpat].
  - apply andb_true_iff in Hpat as [Hpat Hd].
    apply andb_true_iff in Hpat as [Hpat Hc].
    apply andb_true_iff in Hpat as [Ha%bool_decide_eq_true Hb]. subst a.
    pose proof (isDigit_digit _ Hb). pose proof (isDigit_digit _ Hc).
    pose proof (isDigit_digit _ Hd).
    repeat (split; [done|]). change (digit "1") with 1. lia.
  - apply andb_true_iff in Hpat as [Hpat Hd].
    apply andb_true_iff in Hpat as [Hpat Hc].
    apply andb_true_iff in Hpat as [Ha%bool_decide_eq_true Hb%bool_decide_eq_true].
    subst a b.
    pose proof (isDigit02_digit _ Hc). pose proof (isDigit_digit _ Hd).
    apply isDigit02_isDigit in Hc.
    repeat (split; [done|]). change (digit "2") with 2. change (digit "0") with 0.
    lia.
Qed.

Lemma matchFrom_Some (afterWord : bool) (s : string) (y : Z) :
  matchFrom afterWord s = Some y →
  ∃ pre rest,
    s = pre +:+ rest ∧ yearHere rest = Some y ∧
    (pre = "" ∧ afterWord = false ∨
     ∃ pre' e, pre = pre' +:+ String e "" ∧ isWord e = false).
Proof.
  revert afterWord. induction s as [|c s IH]; intros afterWord.
  - cbn [matchFrom]. destruct afterWord; [done|]. done.
  - cbn [matchFrom].
    destruct (if afterWord then None else yearHere (String c s)) as [y'|] eqn:Hhere.
    + intros [= ->]. destruct afterWord; [done|].
      exists "", (String c s). split; [done|]. split; [done|]. by left.
    + intros (pre & rest & -> & Hrest & Hpre)%IH.
      exists (String c pre), rest. split; [done|]. split; [done|]. right.
      destruct Hpre as [[-> Hc] | (pre' & e & -> & He)].
      * by exists "", c.
      * by exists (String c pre'), e.
Qed.

End YearMatchProps.

(** X16. A year that the pattern [\b(1[0-9]{3}|20[0-2][0-9])\b] extracts
    from a text lies between 1000 and 2029. It is the value of four
    consecutive digits of the text that are followed by the end of the text
    or by a character that is not a letter, digit or underscore, and
    preceded by the start of the text or by such a character. *)
Theorem X16_extractYear_sound (text : string) (y : Z) :
  YearMatch.extractYear text = Some y →
  1000 ≤ y ≤ 2029 ∧
  ∃ pre a b c d post,
    text = pre +:+ String a (String b (String c (String d post))) ∧
    YearMatch.isDigit a = true ∧ YearMatch.isDigit b = true ∧
    YearMatch.isDigit c = true ∧ YearMatch.isDigit d = true ∧
    y = 1000 * YearMatch.digit a + 100 * YearMatch.digit b +
        10 * YearMatch.digit c + YearMatch.digit d ∧
    YearMatch.boundaryAfter post = true ∧
    (pre = "" ∨ ∃ pre' e, pre = pre' +:+ String e "" ∧ YearMatch.isWord e = false).
Proof.
  intros (pre & rest & -> & Hrest & Hpre)%matchFrom_Some.
  apply yearHere_Some in Hrest
    as (a & b & c & d & post & -> & Ha & Hb & Hc & Hd & Hy & Hpost & Hbounds).
  split; [done|]. exists pre, a, b, c, d, post.
  repeat (split; [done|]). destruct Hpre as [[-> _] | Hpre]; [by left | by right].
Qed.

Lemma X16_witness :
  YearMatch.extractYear "Main Street, ca. 1923 (photo)" = Some 1923 ∧
  1000 ≤ 1923 ≤ 2029.
Proof.
  assert (YearMatch.extractYear "Main Street, ca. 1923 (photo)" = Some 1923)
    as Hy by reflexivity.
  split; [exact Hy|].
  exact (proj1 (X16_extractYear_sound _ _ Hy)).
Defined.

Lemma periodDefs_end now (d : PeriodDef) :
  d ∈ periodDefs now → end_ d ≤ 2019 ∨ end_ d = now.
Proof.
  unfold periodDefs. rewrite !elem_of_cons, elem_of_nil. intros H.
  repeat (destruct H as [-> | H]; [simpl; lia|]). done.
Qed.

(** X17. An image whose year was extracted by the pattern is never in the
    undated bucket, and it is in a period of the timeline exactly when its
    year is at most 2019 or at most the current year: a year after the
    current year leaves the image out of the timeline. *)
Theorem X17_extracted_year_placement
    (now : Z) (imgs : list ImageResult) (img : ImageResult)
    (text : string) (y : Z) :
  img ∈ imgs → YearMatch.extractYear text = Some y → year img = Some y →
  ((∃ r, r ∈ periods now imgs ∧ img ∈ images r) ↔ y ≤ 2019 ∨ y ≤ now) ∧
  ∀ r, r ∈ periods now imgs → img ∈ images r → label r ≠ undatedLabel.
Proof.
  intros Hin Hext Hy.
  apply matchFrom_Some in Hext as (pre & rest & _ & Hrest & _).
  apply yearHere_Some in Hrest
    as (c1 & c2 & c3 & c4 & post & _ & _ & _ & _ & _ & _ & _ & Hb).
  assert (noYear img = false) as Hno.
  { unfold noYear. rewrite Hy. apply bool_decide_eq_false. lia. }
  assert (yearOf img = y) as Hyear by (unfold yearOf; by rewrite Hy).
  assert (∀ r, r ∈ periods now imgs → img ∈ images r → label r ≠ undatedLabel)
    as Hdated.
  { intros r Hr Himg Hl.
    apply (periods_image now imgs r img Hr) in Himg as [_ Himg].
    rewrite decide_True in Himg by done. congruence. }
  split; [|done]. split.
  - intros (r & Hr & Himg).
    destruct (periods_dated_range now imgs r img Hr (Hdated r Hr Himg) Himg)
      as [_ [_ Hhi]].
    destruct (periods_elem now imgs r Hr) as [[-> _] | (_ & _ & _ & Hdef)].
    { exfalso. by apply (Hdated _ Hr Himg). }
    apply periodDefs_end in Hdef. simpl in Hdef. lia.
  - intros Hle.
    destruct (findPeriod_covered now img) as [d Hd]; [lia | lia |].
    assert (inPeriod now (def_label d) img = true) as Hl.
    { rewrite (inPeriod_Some now _ img d) by done. by apply bool_decide_eq_true. }
    destruct (periods_has_dated now imgs img _ Hin Hl) as (r & Hr & Hlab).
    exists r. split; [done|].
    apply (periods_image now imgs r img Hr). split; [done|].
    rewrite decide_False; [by rewrite Hlab|].
    rewrite Hlab. by apply findPeriod_In, periodDefs_facts in Hd as [Hd _].
Qed.

Lemma X17_witness :
  img_future ∈ [img_loc; img_future] ∧
  YearMatch.extractYear "Plan 2027" = Some 2027 ∧
  year img_future = Some 2027 ∧
  ((∃ r, r ∈ periods 2026 [img_loc; img_future] ∧ img_future ∈ images r) ↔
   2027 ≤ 2019 ∨ 2027 ≤ 2026).
Proof.
  assert (img_future ∈ [img_loc; img_future]) as Hin by (right; left).
  assert (YearMatch.extractYear "Plan 2027" = Some 2027) as Hext by reflexivity.
  split; [exact Hin|]. split; [exact Hext|]. split; [reflexivity|].
  exact (proj1 (X17_extracted_year_placement 2026 _ img_future "Plan 2027" 2027
                  Hin Hext eq_refl)).
Defined.
